(** * github_activity_report: the event decoder and the aggregation reducer

    Shallow embedding of [src/github_activity_report/main.py] (functions
    [load_events] and [main]) and of the parts of
    [src/github_activity_report/github_models.py] they depend on. *)

From Stdlib Require Import String Ascii ZArith List Lia.
From stdpp Require Import base gmap strings list sorting pretty.

Open Scope string_scope.
Open Scope list_scope.

(* ===================================================================== *)
(** ** Python exceptions *)
(* ===================================================================== *)

(** The exceptions that can leave [load_events]. *)
Inductive PyExn :=
| TypeError (msg : string).

(** A Python computation either returns a value or raises. *)
Inductive PyResult (A : Type) :=
| Ret (a : A)
| Raise (e : PyExn).
Arguments Ret {A} a.
Arguments Raise {A} e.

(* ===================================================================== *)
(** ** The decoder: [load_events] *)
(* ===================================================================== *)

Module Decoder.

(** The concrete event classes of [github_models.py], one per value of the
    [type] discriminator. *)
Inductive Kind :=
| KCommitCommentEvent | KCreateEvent | KDeleteEvent | KForkEvent
| KGollumEvent | KIssueCommentEvent | KIssuesEvent | KMemberEvent
| KPublicEvent | KPullRequestEvent | KPullRequestReviewEvent
| KPullRequestReviewCommentEvent | KPullRequestReviewThreadEvent
| KPushEvent | KReleaseEvent | KSponsorshipEvent | KWatchEvent.

(** The [type: Literal[...]] field of each class. *)
Definition kind_literal (k : Kind) : string :=
  match k with
  | KCommitCommentEvent => "CommitCommentEvent"
  | KCreateEvent => "CreateEvent"
  | KDeleteEvent => "DeleteEvent"
  | KForkEvent => "ForkEvent"
  | KGollumEvent => "GollumEvent"
  | KIssueCommentEvent => "IssueCommentEvent"
  | KIssuesEvent => "IssuesEvent"
  | KMemberEvent => "MemberEvent"
  | KPublicEvent => "PublicEvent"
  | KPullRequestEvent => "PullRequestEvent"
  | KPullRequestReviewEvent => "PullRequestReviewEvent"
  | KPullRequestReviewCommentEvent => "PullRequestReviewCommentEvent"
  | KPullRequestReviewThreadEvent => "PullRequestReviewThreadEvent"
  | KPushEvent => "PushEvent"
  | KReleaseEvent => "ReleaseEvent"
  | KSponsorshipEvent => "SponsorshipEvent"
  | KWatchEvent => "WatchEvent"
  end.

(** The members of the [Event] union, in source order ([WatchEvent] is
    listed twice there; [typing.Union] drops the repetition, and the tag
    lookup below returns the first hit, so it changes nothing). *)
Definition Event_union : list Kind :=
  [KCommitCommentEvent; KCreateEvent; KDeleteEvent; KForkEvent;
   KGollumEvent; KIssueCommentEvent; KIssuesEvent; KMemberEvent;
   KPublicEvent; KPullRequestEvent; KPullRequestReviewEvent;
   KPullRequestReviewCommentEvent; KPullRequestReviewThreadEvent;
   KPushEvent; KReleaseEvent; KSponsorshipEvent; KWatchEvent; KWatchEvent].

(** [Field(discriminator="type")]: pydantic selects the member whose
    literal equals the tag. *)
Definition union_tag (t : string) : option Kind :=
  find (fun k => String.eqb (kind_literal k) t) Event_union.

(** pydantic v2's [ValidationError] (from pydantic_core) has no
    constructor taking a message: [ValidationError("...")] itself raises
    [TypeError: No constructor defined]. A successful construction would
    yield the exception object (here [unit]). *)
Definition ValidationError_new (msg : string) : PyResult unit :=
  Raise (TypeError "No constructor defined").

Section LoadEvents.

(** A raw record as produced by [json.loads]. The validators of the pydantic
    schemas are kept abstract: *)
Variable Raw : Type.
(** the value of the ["type"] key, when present and a [str]; *)
Variable type_field : Raw -> option string.
(** whether the [EventBase] fields (id, actor, repo, created_at, org) validate; *)
Variable envelope_valid : Raw -> bool.
(** whether the [payload] validates against the payload model of a class. *)
Variable payload_valid : Kind -> Raw -> bool.

(** A validated event: the instance of class [ev_kind] built from [ev_raw]. *)
Record Event := mkEvent { ev_kind : Kind; ev_raw : Raw }.

(** [<Class>.model_validate(event_raw)]: [EventBase] fields, the
    [type] literal and the payload. *)
Definition model_validate (k : Kind) (r : Raw) : option Event :=
  if envelope_valid r
     && (match type_field r with
         | Some t => String.eqb t (kind_literal k)
         | None => false
         end)
     && payload_valid k r
  then Some (mkEvent k r) else None.

(** [EventLight.model_validate(event_raw)], returning its [type]. *)
Definition EventLight_validate (r : Raw) : option string :=
  if envelope_valid r then type_field r else None.

(** Validation of one element against the discriminated union [Event]. *)
Definition Event_validate (r : Raw) : option Event :=
  match type_field r with
  | Some t => match union_tag t with
              | Some k => model_validate k r
              | None => None
              end
  | None => None
  end.

(** [Events.model_validate(events_raw).root]: all elements must validate. *)
Fixpoint Events_validate (rs : list Raw) : option (list Event) :=
  match rs with
  | [] => Some []
  | r :: rs' =>
      match Event_validate r, Events_validate rs' with
      | Some e, Some es => Some (e :: es)
      | _, _ => None
      end
  end.

(** The [if event_light.type == ...] chain of the fallback loop: [Ret None]
    is a [ValidationError] caught by [except ValidationError] (the record is
    skipped), [Ret (Some e)] a decoded event, [Raise] an exception that
    escapes the handler. *)
Definition dispatch_type (t : string) (r : Raw) : PyResult (option Event) :=
  if String.eqb t "CommitCommentEvent" then Ret (model_validate KCommitCommentEvent r)
  else if String.eqb t "CreateEvent" then Ret (model_validate KCreateEvent r)
  else if String.eqb t "DeleteEvent" then Ret (model_validate KDeleteEvent r)
  else if String.eqb t "ForkEvent" then Ret (model_validate KForkEvent r)
  else if String.eqb t "GollumEvent" then Ret (model_validate KGollumEvent r)
  else if String.eqb t "IssueCommentEvent" then Ret (model_validate KIssueCommentEvent r)
  else if String.eqb t "IssuesEvent" then Ret (model_validate KIssuesEvent r)
  else if String.eqb t "MemberEvent" then Ret (model_validate KMemberEvent r)
  else if String.eqb t "PublicEvent" then Ret (model_validate KPublicEvent r)
  else if String.eqb t "PullRequestEvent" then Ret (model_validate KPullRequestEvent r)
  else if String.eqb t "PullRequestReviewEvent"
  then Ret (model_validate KPullRequestReviewEvent r)
  else if String.eqb t "PullRequestReviewCommentEvent"
  then Ret (model_validate KPullRequestReviewCommentEvent r)
  else if String.eqb t "PullRequestReviewThreadEvent"
  then Ret (model_validate KPullRequestReviewThreadEvent r)
  else if String.eqb t "PushEvent" then Ret (model_validate KPushEvent r)
  else if String.eqb t "ReleaseEvent" then Ret (model_validate KReleaseEvent r)
  else if String.eqb t "SponsorshipEvent" then Ret (model_validate KSponsorshipEvent r)
  else if String.eqb t "WatchEvent" then Ret (model_validate KWatchEvent r)
  else
    (* raise ValidationError(f"Unexpected event type: {event_light.type}") *)
    match ValidationError_new ("Unexpected event type: " +:+ t) with
    | Ret _ => Ret None
    | Raise x => Raise x
    end.

(** The per-record fallback loop ([for event_raw in events_raw: ...]). *)
Fixpoint fallback (rs : list Raw) : PyResult (list Event) :=
  match rs with
  | [] => Ret []
  | r :: rs' =>
      match EventLight_validate r with
      | None => fallback rs'
      | Some t =>
          match dispatch_type t r with
          | Raise x => Raise x
          | Ret None => fallback rs'
          | Ret (Some e) =>
              match fallback rs' with
              | Ret es => Ret (e :: es)
              | Raise x => Raise x
              end
          end
      end
  end.

(** [load_events], on the already parsed [events_raw]. *)
Definition load_events (events_raw : list Raw) : PyResult (list Event) :=
  match Events_validate events_raw with
  | Some es => Ret es
  | None => fallback events_raw
  end.

End LoadEvents.

Arguments mkEvent {Raw} ev_kind ev_raw.
Arguments model_validate {Raw} type_field envelope_valid payload_valid k r.
Arguments EventLight_validate {Raw} type_field envelope_valid r.
Arguments Event_validate {Raw} type_field envelope_valid payload_valid r.
Arguments Events_validate {Raw} type_field envelope_valid payload_valid rs.
Arguments dispatch_type {Raw} type_field envelope_valid payload_valid t r.
Arguments fallback {Raw} type_field envelope_valid payload_valid rs.
Arguments load_events {Raw} type_field envelope_valid payload_valid events_raw.

End Decoder.

(* ===================================================================== *)
(** ** The typed events used by [main] ([github_models.py]) *)
(* ===================================================================== *)

(** Only the fields that [main] reads are kept. Timestamps ([created_at],
    always timezone-aware in the GitHub API) are instants as [Z]. *)
Module Models.

Record EventActor := { actor_login : string }.
Record EventRepository := { repo_name : string }.
Record User := { login : string }.
Record Repo := { full_name : string }.
Record Branch := { branch_ref : string; branch_repo : Repo }.

Record PullRequest := {
  pr_number : Z;
  pr_title : string;
  pr_user : User;
  pr_body : option string;
  pr_head : Branch }.

Record PullRequestEventPayload := {
  pre_action : string;
  pre_number : Z;
  pre_pull_request : PullRequest }.

Record IssuePullRequest := { ipr_url : string }.

Record Issue := {
  issue_number : Z;
  issue_title : string;
  issue_user : User;
  issue_pull_request : option IssuePullRequest }.

Record IssueCommentEventPayload := {
  ice_action : string;
  ice_issue : Issue }.

Record EventBase := {
  ev_id : string;
  ev_actor : EventActor;
  ev_repo : EventRepository;
  ev_created_at : Z }.

(** A decoded [Event]; the classes [main] does not inspect are [OtherEvent]. *)
Inductive Event :=
| PullRequestEvent (b : EventBase) (p : PullRequestEventPayload)
| IssueCommentEvent (b : EventBase) (p : IssueCommentEventPayload)
| OtherEvent (k : Decoder.Kind) (b : EventBase).

End Models.

Import Models.

(* ===================================================================== *)
(** ** [ISSUE_PR_LINK_PATTERN] and [finditer] *)
(* ===================================================================== *)

(** [re.compile(r"(?:close(?:s|d)?|fix(?:es|ed)?|resolve(?:s|d)?)\s+#(?P<id>\d+)",
    re.IGNORECASE)], matched on text given as a list of ASCII characters. *)
Module LinkPattern.

Definition lower (c : ascii) : ascii :=
  let n := nat_of_ascii c in
  if (65 <=? n)%nat && (n <=? 90)%nat then ascii_of_nat (n + 32) else c.

(** [\s] on ASCII: space, [\t\n\v\f\r] and the separators 0x1c-0x1f. *)
Definition is_space (c : ascii) : bool :=
  let n := nat_of_ascii c in
  (n =? 32)%nat || ((9 <=? n)%nat && (n <=? 13)%nat)
  || ((28 <=? n)%nat && (n <=? 31)%nat).

Definition is_digit (c : ascii) : bool :=
  let n := nat_of_ascii c in (48 <=? n)%nat && (n <=? 57)%nat.

(** A literal under [re.IGNORECASE]; returns the rest of the input. *)
Fixpoint match_ci (lit s : list ascii) : option (list ascii) :=
  match lit, s with
  | [], _ => Some s
  | c :: lit', d :: s' =>
      if Ascii.eqb (lower c) (lower d) then match_ci lit' s' else None
  | _ :: _, [] => None
  end.

Fixpoint skip_spaces (s : list ascii) : list ascii :=
  match s with
  | c :: s' => if is_space c then skip_spaces s' else s
  | [] => []
  end.

Fixpoint span_digits (s : list ascii) : list ascii * list ascii :=
  match s with
  | c :: s' =>
      if is_digit c then let '(ds, rest) := span_digits s' in (c :: ds, rest)
      else ([], s)
  | [] => ([], [])
  end.

(** [\s+#(?P<id>\d+)]: both repetitions are greedy; backtracking [\s+]
    cannot help since ['#'] is not a space, nor backtracking [\d+] since
    nothing follows it. Returns the [id] group and the rest. *)
Definition match_tail (s : list ascii) : option (list ascii * list ascii) :=
  match s with
  | c :: _ =>
      if is_space c then
        match skip_spaces s with
        | "#"%char :: s' =>
            match span_digits s' with
            | ([], _) => None
            | (ds, rest) => Some (ds, rest)
            end
        | _ => None
        end
      else None
  | [] => None
  end.

(** The alternatives of the keyword group in the order the regex engine
    tries them (greedy [?] tries the suffixes before the empty one). *)
Definition keywords : list (list ascii) :=
  map list_ascii_of_string
    ["closes"; "closed"; "close"; "fixes"; "fixed"; "fix";
     "resolves"; "resolved"; "resolve"].

Fixpoint match_at (alts : list (list ascii)) (s : list ascii)
  : option (list ascii * list ascii) :=
  match alts with
  | [] => None
  | a :: alts' =>
      match match_ci a s with
      | Some s' =>
          match match_tail s' with
          | Some res => Some res
          | None => match_at alts' s
          end
      | None => match_at alts' s
      end
  end.

(** [finditer]: non-overlapping matches, left to right; every match is
    non-empty, so [length s + 1] rounds suffice. *)
Fixpoint finditer_go (fuel : nat) (s : list ascii) : list (list ascii) :=
  match fuel with
  | O => []
  | S fuel' =>
      match s with
      | [] => []
      | _ :: s' =>
          match match_at keywords s with
          | Some (ds, rest) => ds :: finditer_go fuel' rest
          | None => finditer_go fuel' s'
          end
      end
  end.

Definition finditer (s : string) : list (list ascii) :=
  let l := list_ascii_of_string s in finditer_go (S (length l)) l.

(** [int(match.group("id"))]. *)
Definition int_of_digits (ds : list ascii) : Z :=
  fold_left (fun acc d => acc * 10 + (Z.of_nat (nat_of_ascii d) - 48))%Z ds 0%Z.

(** The set comprehension [{int(m.group("id")) for m in finditer(body)}]. *)
Definition linked_ids (body : string) : gset Z :=
  list_to_set (map int_of_digits (finditer body)).

End LinkPattern.

(* ===================================================================== *)
(** ** The aggregates of [main.py] and the store that holds them *)
(* ===================================================================== *)

Module Aggregation.

Record Commit := { commit_creator : string; commit_sha : string }.

(** [Branch(ref, repo, commits)]; [commits] is always the empty [set()]. *)
Record Branch := { ref : string; repo : string; commits : list Commit }.

Record Action := { action : string; date : Z; action_by : string }.

Record Issue := {
  issue_number : Z;
  issue_title : string;
  issue_creator : string;
  issue_actions : list Action }.

(** [linked_issues] is always the empty [set()]. *)
Record PullRequest := {
  number : Z;
  title : string;
  creator : string;
  linked_issues : list Issue;
  linked_issues_ids : gset Z;
  branch : option Branch;
  actions : list Action }.

(** The [PullRequest] and [Issue] objects live in a heap, so that object
    identity is explicit; a [Repository]'s dicts map keys to locations. *)
Definition loc := nat.

Inductive Obj :=
| OPR (p : PullRequest)
| OIssue (i : Issue).

Record Repository := {
  name : string;
  pull_requests : gmap string loc;
  issues : gmap string loc;
  branches : gmap string Branch }.

(** The local state of [main]: the [repositories] dict and the objects
    allocated so far ([next_loc] is the next fresh location). *)
Record State := {
  repositories : gmap string Repository;
  heap : gmap loc Obj;
  next_loc : loc }.

Definition empty_state : State :=
  {| repositories := ∅; heap := ∅; next_loc := 0 |}.

Definition new_repository (rn : string) : Repository :=
  {| name := rn; pull_requests := ∅; issues := ∅; branches := ∅ |}.

(** [if not repo_name in repositories: ... else: repo = repositories[repo_name]] *)
Definition get_repo (repos : gmap string Repository) (rn : string) : Repository :=
  match repos !! rn with
  | Some r => r
  | None => new_repository rn
  end.

(** The two dicts of aggregates of a repository. *)
Inductive Coll := CPR | CIssue.

Global Instance Coll_eq_dec : EqDecision Coll.
Proof. solve_decision. Defined.

Definition coll (c : Coll) (r : Repository) : gmap string loc :=
  match c with
  | CPR => pull_requests r
  | CIssue => issues r
  end.

Definition set_coll (c : Coll) (m : gmap string loc) (r : Repository) : Repository :=
  match c with
  | CPR => {| name := name r; pull_requests := m; issues := issues r;
              branches := branches r |}
  | CIssue => {| name := name r; pull_requests := pull_requests r; issues := m;
                 branches := branches r |}
  end.

(** Resolve the repository [rn] (creating it), then the aggregate [key] of
    dict [c] (allocating [fresh] when absent); returns its location. *)
Definition get_or_create (c : Coll) (st : State) (rn key : string) (fresh : Obj)
  : State * loc :=
  let repo := get_repo (repositories st) rn in
  match coll c repo !! key with
  | Some l =>
      ({| repositories := <[rn := repo]> (repositories st);
          heap := heap st; next_loc := next_loc st |}, l)
  | None =>
      let l := next_loc st in
      ({| repositories := <[rn := set_coll c (<[key := l]> (coll c repo)) repo]>
                            (repositories st);
          heap := <[l := fresh]> (heap st);
          next_loc := S l |}, l)
  end.

(** In-place mutation of the object at [l]. *)
Definition update_obj (g : Obj -> Obj) (l : loc) (st : State) : State :=
  {| repositories := repositories st; heap := alter g l (heap st);
     next_loc := next_loc st |}.

Definition on_pr (f : PullRequest -> PullRequest) (o : Obj) : Obj :=
  match o with
  | OPR p => OPR (f p)
  | OIssue i => OIssue i
  end.

Definition on_issue (f : Issue -> Issue) (o : Obj) : Obj :=
  match o with
  | OIssue i => OIssue (f i)
  | OPR p => OPR p
  end.

(** [pr.actions.append(a)] *)
Definition pr_append_action (a : Action) (p : PullRequest) : PullRequest :=
  {| number := number p; title := title p; creator := creator p;
     linked_issues := linked_issues p; linked_issues_ids := linked_issues_ids p;
     branch := branch p; actions := actions p ++ [a] |}.

(** [pr.linked_issues_ids.clear(); pr.linked_issues_ids.update(ids)] *)
Definition pr_replace_ids (ids : gset Z) (p : PullRequest) : PullRequest :=
  {| number := number p; title := title p; creator := creator p;
     linked_issues := linked_issues p; linked_issues_ids := ids;
     branch := branch p; actions := actions p |}.

(** [issue.actions.append(a)] *)
Definition issue_append_action (a : Action) (i : Issue) : Issue :=
  {| issue_number := issue_number i; issue_title := issue_title i;
     issue_creator := issue_creator i; issue_actions := issue_actions i ++ [a] |}.

(** [str(n)], the key of the dicts. *)
Definition str (n : Z) : string := pretty n.

(** The action appended by a [PullRequestEvent]. *)
Definition pr_event_action (b : EventBase) (p : PullRequestEventPayload) : Action :=
  {| action := "PR " +:+ pre_action p; date := ev_created_at b;
     action_by := actor_login (ev_actor b) |}.

(** The action appended by an [IssueCommentEvent] on a pull request. *)
Definition pr_comment_action (b : EventBase) (p : IssueCommentEventPayload) : Action :=
  {| action := "PR comment " +:+ ice_action p; date := ev_created_at b;
     action_by := actor_login (ev_actor b) |}.

(** The action appended by an [IssueCommentEvent] on an issue. *)
Definition issue_comment_action (b : EventBase) (p : IssueCommentEventPayload) : Action :=
  {| action := "Issue comment " +:+ ice_action p; date := ev_created_at b;
     action_by := actor_login (ev_actor b) |}.

(** The [PullRequest] built by the first loop when the number is new. *)
Definition pr_from_pr_event (p : PullRequestEventPayload) : PullRequest :=
  let s := pre_pull_request p in
  {| number := pr_number s; title := pr_title s; creator := login (pr_user s);
     linked_issues := []; linked_issues_ids := ∅;
     branch := Some {| ref := branch_ref (pr_head s);
                       repo := full_name (branch_repo (pr_head s));
                       commits := [] |};
     actions := [] |}.

(** The [PullRequest] built by the second loop when the number is new. *)
Definition pr_from_comment (p : IssueCommentEventPayload) : PullRequest :=
  let i := ice_issue p in
  {| number := Models.issue_number i; title := Models.issue_title i;
     creator := login (issue_user i);
     linked_issues := []; linked_issues_ids := ∅; branch := None; actions := [] |}.

Definition issue_from_comment (p : IssueCommentEventPayload) : Issue :=
  let i := ice_issue p in
  {| issue_number := Models.issue_number i; issue_title := Models.issue_title i;
     issue_creator := login (issue_user i); issue_actions := [] |}.

(** One iteration of the first loop of [main] (lines 214-258). *)
Definition pull_request_step (st : State) (b : EventBase) (p : PullRequestEventPayload)
  : State :=
  let s := pre_pull_request p in
  let '(st1, l) := get_or_create CPR st (repo_name (ev_repo b)) (str (pr_number s))
                     (OPR (pr_from_pr_event p)) in
  let st2 := update_obj (on_pr (pr_append_action (pr_event_action b p))) l st1 in
  match pr_body s with
  | Some body =>
      if String.eqb body "" then st2
      else update_obj (on_pr (pr_replace_ids (LinkPattern.linked_ids body))) l st2
  | None => st2
  end.

(** One iteration of the second loop of [main] (lines 265-317); a present
    [IssuePullRequest] instance is truthy. *)
Definition issue_comment_step (st : State) (b : EventBase) (p : IssueCommentEventPayload)
  : State :=
  let i := ice_issue p in
  let rn := repo_name (ev_repo b) in
  match issue_pull_request i with
  | Some _ =>
      let '(st1, l) := get_or_create CPR st rn (str (Models.issue_number i))
                         (OPR (pr_from_comment p)) in
      update_obj (on_pr (pr_append_action (pr_comment_action b p))) l st1
  | None =>
      let '(st1, l) := get_or_create CIssue st rn (str (Models.issue_number i))
                         (OIssue (issue_from_comment p)) in
      update_obj (on_issue (issue_append_action (issue_comment_action b p))) l st1
  end.

(** [sorted(xs, key=...)]: a stable sort (insertion sort; an element goes
    after every element whose key is not greater than its own). *)
Fixpoint insert_by {A} (key : A -> Z) (x : A) (l : list A) : list A :=
  match l with
  | [] => [x]
  | y :: l' => if Z.ltb (key x) (key y) then x :: y :: l' else y :: insert_by key x l'
  end.

Definition sorted_by {A} (key : A -> Z) (l : list A) : list A :=
  fold_left (fun acc x => insert_by key x acc) l [].

(** [filter(event_is_pull_request, events)] *)
Definition as_pull_request_event (e : Event) : option (EventBase * PullRequestEventPayload) :=
  match e with
  | PullRequestEvent b p => Some (b, p)
  | _ => None
  end.

(** [filter(event_is_issue_comment, events)] *)
Definition as_issue_comment_event (e : Event) : option (EventBase * IssueCommentEventPayload) :=
  match e with
  | IssueCommentEvent b p => Some (b, p)
  | _ => None
  end.

Definition created_at {P} (e : EventBase * P) : Z := ev_created_at (fst e).

(** The aggregation part of [main]: the two loops, one after the other. *)
Definition aggregate (events : list Event) : State :=
  let st := fold_left (fun st '(b, p) => pull_request_step st b p)
              (sorted_by created_at (omap as_pull_request_event events)) empty_state in
  fold_left (fun st '(b, p) => issue_comment_step st b p)
    (sorted_by created_at (omap as_issue_comment_event events)) st.

(** The same run as one list of loop iterations. *)
Inductive Step :=
| SPullRequest (b : EventBase) (p : PullRequestEventPayload)
| SIssueComment (b : EventBase) (p : IssueCommentEventPayload).

Definition step (st : State) (s : Step) : State :=
  match s with
  | SPullRequest b p => pull_request_step st b p
  | SIssueComment b p => issue_comment_step st b p
  end.

Definition main_steps (events : list Event) : list Step :=
  map (fun '(b, p) => SPullRequest b p)
      (sorted_by created_at (omap as_pull_request_event events))
  ++ map (fun '(b, p) => SIssueComment b p)
      (sorted_by created_at (omap as_issue_comment_event events)).

Definition run (steps : list Step) (st : State) : State := fold_left step steps st.

(** Reading the aggregates back. *)
Definition points_to (st : State) (c : Coll) (rn key : string) (l : loc) : Prop :=
  exists r, repositories st !! rn = Some r /\ coll c r !! key = Some l.

Definition lookup_obj (st : State) (c : Coll) (rn key : string) : option Obj :=
  r ← repositories st !! rn; l ← coll c r !! key; heap st !! l.

Definition lookup_pr (st : State) (rn key : string) : option PullRequest :=
  match lookup_obj st CPR rn key with
  | Some (OPR p) => Some p
  | _ => None
  end.

Definition lookup_issue (st : State) (rn key : string) : option Issue :=
  match lookup_obj st CIssue rn key with
  | Some (OIssue i) => Some i
  | _ => None
  end.

End Aggregation.

(* ===================================================================== *)
(** ** Auxiliary notions used by the statements *)
(* ===================================================================== *)

Module Spec.
Import Aggregation.

Definition obj_coll (o : Obj) : Coll :=
  match o with
  | OPR _ => CPR
  | OIssue _ => CIssue
  end.

(** The store invariant of [main]: every object lies below [next_loc]; every
    dict entry points to an object of its kind; no two dict entries (of any
    repository) point to the same object. *)
Definition wf (st : State) : Prop :=
  (forall l o, heap st !! l = Some o -> (l < next_loc st)%nat) /\
  (forall c rn key l, points_to st c rn key l ->
     exists o, heap st !! l = Some o /\ obj_coll o = c) /\
  (forall c1 rn1 k1 c2 rn2 k2 l,
     points_to st c1 rn1 k1 l -> points_to st c2 rn2 k2 l ->
     c1 = c2 /\ rn1 = rn2 /\ k1 = k2).

(** Resolve-or-create an aggregate, then mutate it with [g]. *)
Definition touch (c : Coll) (st : State) (rn key : string) (fresh : Obj)
  (g : Obj -> Obj) : State :=
  let '(st1, l) := get_or_create c st rn key fresh in update_obj g l st1.

(** What one [PullRequestEvent] does to its [PullRequest]. *)
Definition pr_event_update (b : EventBase) (p : PullRequestEventPayload)
  (q : PullRequest) : PullRequest :=
  let q1 := pr_append_action (pr_event_action b p) q in
  match pr_body (pre_pull_request p) with
  | Some body =>
      if String.eqb body "" then q1
      else pr_replace_ids (LinkPattern.linked_ids body) q1
  | None => q1
  end.

(** The events of each loop that reach the [PullRequest] stored under
    [key] in repository [rn]. *)
Definition pr_event_targets (rn key : string) (e : EventBase * PullRequestEventPayload)
  : bool :=
  String.eqb (repo_name (ev_repo (fst e))) rn
  && String.eqb (str (pr_number (pre_pull_request (snd e)))) key.

Definition comment_pr_targets (rn key : string) (e : EventBase * IssueCommentEventPayload)
  : bool :=
  String.eqb (repo_name (ev_repo (fst e))) rn
  && match issue_pull_request (ice_issue (snd e)) with Some _ => true | None => false end
  && String.eqb (str (Models.issue_number (ice_issue (snd e)))) key.

Definition comment_issue_targets (rn key : string) (e : EventBase * IssueCommentEventPayload)
  : bool :=
  String.eqb (repo_name (ev_repo (fst e))) rn
  && match issue_pull_request (ice_issue (snd e)) with Some _ => false | None => true end
  && String.eqb (str (Models.issue_number (ice_issue (snd e)))) key.

(** What each loop does to the [PullRequest] under one key, seen as a
    value ([None]: not created yet). *)
Definition pr_view_step (o : option PullRequest) (e : EventBase * PullRequestEventPayload)
  : option PullRequest :=
  Some (pr_event_update (fst e) (snd e) (default (pr_from_pr_event (snd e)) o)).

Definition comment_view_step (o : option PullRequest) (e : EventBase * IssueCommentEventPayload)
  : option PullRequest :=
  Some (pr_append_action (pr_comment_action (fst e) (snd e))
          (default (pr_from_comment (snd e)) o)).

Definition pr_act (e : EventBase * PullRequestEventPayload) : Action :=
  pr_event_action (fst e) (snd e).

Definition comment_act (e : EventBase * IssueCommentEventPayload) : Action :=
  pr_comment_action (fst e) (snd e).

(** The fields of a [PullRequest] fixed at its creation. *)
Definition same_fixed_fields (q q' : PullRequest) : Prop :=
  number q' = number q /\ title q' = title q /\ creator q' = creator q
  /\ linked_issues q' = linked_issues q /\ branch q' = branch q.

(** [q'] is a later version of [q]: fixed fields kept, actions extended. *)
Definition pr_frame (q q' : PullRequest) : Prop :=
  same_fixed_fields q q' /\ exists suffix, actions q' = actions q ++ suffix.

(** The first loop's events, sorted; the second loop's events, sorted. *)
Definition pr_pass (events : list Event) : list (EventBase * PullRequestEventPayload) :=
  sorted_by created_at (omap as_pull_request_event events).

Definition comment_pass (events : list Event)
  : list (EventBase * IssueCommentEventPayload) :=
  sorted_by created_at (omap as_issue_comment_event events).

(** [x] occurs before [y] in [l]. *)
Definition before {A} (x y : A) (l : list A) : Prop :=
  exists l1 l2 l3, l = (l1 ++ x :: l2 ++ y :: l3)%list.

(** Elements tagged with their input position, ordered by (key, position). *)
Definition tagged_lt {A} (key : A -> Z) (a b : nat * A) : Prop :=
  (key (snd a) < key (snd b))%Z \/ (key (snd a) = key (snd b) /\ (fst a < fst b)%nat).

End Spec.

(* ===================================================================== *)
(** ** Sample inputs *)
(* ===================================================================== *)

Module Samples.
Import Aggregation.

(** A parsed JSON record, seen through the three validators of the
    decoder: its ["type"] string, whether its [EventBase] fields validate,
    and whether its payload validates for the class its type names. *)
Record SampleRaw := { s_type : option string; s_envelope_ok : bool; s_payload_ok : bool }.

Definition s_payload_valid (k : Decoder.Kind) (r : SampleRaw) : bool := s_payload_ok r.

Definition good_push : SampleRaw := {| s_type := Some "PushEvent"; s_envelope_ok := true; s_payload_ok := true |}.
Definition good_watch : SampleRaw := {| s_type := Some "WatchEvent"; s_envelope_ok := true; s_payload_ok := true |}.
Definition bad_payload : SampleRaw := {| s_type := Some "PushEvent"; s_envelope_ok := true; s_payload_ok := false |}.
Definition unknown_type : SampleRaw := {| s_type := Some "DiscussionEvent"; s_envelope_ok := true; s_payload_ok := true |}.

Definition base (rn : string) (t : Z) : EventBase :=
  {| ev_id := "1"; ev_actor := {| actor_login := "octocat" |};
     ev_repo := {| repo_name := rn |}; ev_created_at := t |}.

Definition pr_payload (n : Z) (ti : string) (body : option string) : PullRequestEventPayload :=
  {| pre_action := "opened"; pre_number := n;
     pre_pull_request :=
       {| pr_number := n; pr_title := ti; pr_user := {| login := "octocat" |};
          pr_body := body;
          pr_head := {| branch_ref := "fix"; branch_repo := {| full_name := "octocat/r" |} |} |} |}.

Definition comment_payload (n : Z) (ti : string) (is_pr : bool) : IssueCommentEventPayload :=
  {| ice_action := "created";
     ice_issue := {| Models.issue_number := n; Models.issue_title := ti;
                     issue_user := {| login := "hubot" |};
                     issue_pull_request := if is_pr then Some {| ipr_url := "u" |} else None |} |}.

(** A comment on pull request 5 (later, titled "New") arriving before the
    [PullRequestEvent] that opened it (earlier, titled "Old"). *)
Definition comment_then_pr : list Event :=
  [IssueCommentEvent (base "o/r" 2) (comment_payload 5 "New" true);
   PullRequestEvent (base "o/r" 1) (pr_payload 5 "Old" None)].

(** Two [PullRequestEvent]s of pull request 5, the later one first. *)
Definition two_pr_events : list Event :=
  [PullRequestEvent (base "o/r" 2) (pr_payload 5 "B" None);
   PullRequestEvent (base "o/r" 1) (pr_payload 5 "A" None)].

(** Pull request 1 of two repositories. *)
Definition two_repositories : list Event :=
  [PullRequestEvent (base "a/x" 1) (pr_payload 1 "X" None);
   PullRequestEvent (base "b/y" 1) (pr_payload 1 "Y" None)].

(** A comment on pull request 5 older than the event that opened it. *)
Definition early_comment : list Event :=
  [IssueCommentEvent (base "o/r" 1) (comment_payload 5 "T" true);
   PullRequestEvent (base "o/r" 2) (pr_payload 5 "T" None)].

End Samples.

(* ===================================================================== *)
(** ** Auxiliary notions for the other parts of [main] *)
(* ===================================================================== *)

Module SpecMore.
Import Aggregation Spec.

(** What the second loop does to the [Issue] under one key, seen as a
    value ([None]: not created yet). *)
Definition issue_view_step (o : option Issue) (e : EventBase * IssueCommentEventPayload)
  : option Issue :=
  Some (issue_append_action (issue_comment_action (fst e) (snd e))
          (default (issue_from_comment (snd e)) o)).

Definition issue_act (e : EventBase * IssueCommentEventPayload) : Action :=
  issue_comment_action (fst e) (snd e).

(** The last non-empty body among the given [PullRequestEvent]s. *)
Definition last_nonempty_body (A : list (EventBase * PullRequestEventPayload))
  : option string :=
  fold_left (fun acc e =>
               match pr_body (pre_pull_request (snd e)) with
               | Some body => if String.eqb body "" then acc else Some body
               | None => acc
               end) A None.

(** The repository a loop iteration works on. *)
Definition step_repo (s : Step) : string :=
  match s with
  | SPullRequest b _ => repo_name (ev_repo b)
  | SIssueComment b _ => repo_name (ev_repo b)
  end.

(** The repository an event of one of the two loops names; the other
    events are filtered out. *)
Definition event_repo (e : Event) : option string :=
  match e with
  | PullRequestEvent b _ => Some (repo_name (ev_repo b))
  | IssueCommentEvent b _ => Some (repo_name (ev_repo b))
  | OtherEvent _ _ => None
  end.

(** [linked_issues_ids] along the folds: the ids of the last non-empty body
    seen so far, or the empty set. *)
Definition ids_of (acc : option string) : gset Z :=
  match acc with Some body => LinkPattern.linked_ids body | None => ∅ end.

Definition body_step (acc : option string) (e : EventBase * PullRequestEventPayload)
  : option string :=
  match pr_body (pre_pull_request (snd e)) with
  | Some body => if String.eqb body "" then acc else Some body
  | None => acc
  end.

(** Every repository is stored under its own name and has no branches. *)
Definition repo_inv (st : State) : Prop :=
  forall rn r, repositories st !! rn = Some r -> name r = rn /\ branches r = ∅.

(** Equality of two character lists up to the case of ASCII letters. *)
Definition ci (s1 s2 : list ascii) : Prop :=
  map LinkPattern.lower s1 = map LinkPattern.lower s2.

End SpecMore.

(* ===================================================================== *)
(** ** The fetch side: [get_resp_header], [LINK_PATTERN] and
       [get_all_initial_events] *)
(* ===================================================================== *)

Module Fetch.

(** The exceptions of the fetch side: [requests.HTTPError] raised by
    [raise_for_status], the [AssertionError] of [assert value], and the
    exceptions of the steps taken as parameters below ([float], [json]). *)
Inductive FetchExn :=
| HTTPError (status : Z)
| AssertionError
| OtherError (name : string).

Inductive Result (A : Type) :=
| Ok (a : A)
| Err (e : FetchExn).
Arguments Ok {A} a.
Arguments Err {A} e.

Global Instance Result_ret : MRet Result := fun A a => Ok a.
Global Instance Result_bind : MBind Result :=
  fun A B f m => match m with Ok a => f a | Err e => Err e end.

(** The part of a [requests.Response] the code reads. *)
Record Response (Body : Type) := {
  status_code : Z;
  resp_headers : list (string * string);
  content : Body
}.
Arguments status_code {Body} r.
Arguments resp_headers {Body} r.
Arguments content {Body} r.

Definition lower_string (s : string) : string :=
  string_of_list_ascii (map LinkPattern.lower (list_ascii_of_string s)).

(** [response.headers] is a [CaseInsensitiveDict] built by inserting the
    received headers in order under their lowercased name: [get] returns
    the value of the last header whose name matches. *)
Definition headers_get (hs : list (string * string)) (key : string)
  : option string :=
  fold_left (fun acc '(n, v) =>
    if String.eqb (lower_string n) (lower_string key) then Some v else acc)
    hs None.

(** [response.raise_for_status()]. *)
Definition raise_for_status {Body} (r : Response Body) : Result unit :=
  if (400 <=? status_code r)%Z && (status_code r <? 600)%Z
  then Err (HTTPError (status_code r)) else Ok tt.

(** [get_resp_header]: [assert value] fails on [None] and on [""]. *)
Definition get_resp_header {Body} (r : Response Body) (header : string)
  : Result string :=
  match headers_get (resp_headers r) header with
  | Some v => if String.eqb v "" then Err AssertionError else Ok v
  | None => Err AssertionError
  end.

(** [LINK_PATTERN = <(?P<url>.+?)>; rel="(?P<rel>.+?)"]: ['.'] matches any
    character but a newline; both groups are lazy, so the engine tries the
    shortest [url] first, then the shortest [rel], and on failure of the
    rest gives [url] one more character. *)
Definition newline : ascii := "010"%char.
Definition dquote : ascii := "034"%char.

Definition link_sep : list ascii := list_ascii_of_string ">; rel=" ++ [dquote].

(** A literal, case-sensitive; returns the rest of the input. *)
Fixpoint match_lit (lit s : list ascii) : option (list ascii) :=
  match lit, s with
  | [], _ => Some s
  | c :: lit', d :: s' => if Ascii.eqb c d then match_lit lit' s' else None
  | _ :: _, [] => None
  end.

(** The [rel] group and the closing double quote: returns the group and
    the rest. *)
Fixpoint rel_go (acc s : list ascii) : option (list ascii * list ascii) :=
  match s with
  | [] => None
  | c :: s' =>
      if Ascii.eqb c newline then None
      else
        let acc' := acc ++ [c] in
        match s' with
        | d :: rest => if Ascii.eqb d dquote then Some (acc', rest) else rel_go acc' s'
        | [] => None
        end
  end.

(** [(?P<url>.+?)>; rel="(?P<rel>.+?)"]. *)
Fixpoint url_go (acc s : list ascii)
  : option (list ascii * list ascii * list ascii) :=
  match s with
  | [] => None
  | c :: s' =>
      if Ascii.eqb c newline then None
      else
        let acc' := acc ++ [c] in
        match match_lit link_sep s' with
        | Some t =>
            match rel_go [] t with
            | Some (rel, rest) => Some (acc', rel, rest)
            | None => url_go acc' s'
            end
        | None => url_go acc' s'
        end
  end.

(** A match of [LINK_PATTERN] starting at the head of [s]. *)
Definition match_link (s : list ascii)
  : option (list ascii * list ascii * list ascii) :=
  match s with
  | c :: s' => if Ascii.eqb c "<" then url_go [] s' else None
  | [] => None
  end.

(** [re.finditer(LINK_PATTERN, link)]; every match is non-empty. *)
Fixpoint link_finditer_go (fuel : nat) (s : list ascii)
  : list (list ascii * list ascii) :=
  match fuel with
  | O => []
  | S fuel' =>
      match s with
      | [] => []
      | _ :: s' =>
          match match_link s with
          | Some (url, rel, rest) => (url, rel) :: link_finditer_go fuel' rest
          | None => link_finditer_go fuel' s'
          end
      end
  end.

(** The [(match.group("url"), match.group("rel"))] pairs. *)
Definition link_finditer (link : string) : list (string * string) :=
  let l := list_ascii_of_string link in
  map (fun '(u, r) => (string_of_list_ascii u, string_of_list_ascii r))
    (link_finditer_go (S (length l)) l).

(** The body of the [for match in re.finditer(...)] loop, on the pair
    [(next_link, last_link)]. *)
Definition extract_step (links : option string * option string)
  (m : string * string) : option string * option string :=
  let '(next_link, last_link) := links in
  let '(url, rel) := m in
  (if String.eqb rel "next" then Some url else next_link,
   if String.eqb rel "last" then Some url else last_link).

(** The loop, from [next_link = None] and [last_link = None]. *)
Definition extract_links (ms : list (string * string))
  : option string * option string :=
  fold_left extract_step ms (None, None).

(** Python truthiness of an [Optional[str]]: [not x]. *)
Definition falsy (o : option string) : bool :=
  match o with None => true | Some s => String.eqb s "" end.

Definition start_link : string :=
  "https://api.github.com/users/benoit74/events?per_page=100".

Section Loop.

(** [Body] is the payload of a response and [Item] a decoded JSON event;
    [json_events] is [response.json()] iterated by [extend], [reset_check]
    the [float(...)] and [fromtimestamp] conversions of the reset header,
    [get] the server answering [requests.get] for a URL and [write_file]
    the [json.dump] to [INITIAL_EVENTS_PATH]. *)
Context {Body Item : Type}
  (json_events : Body -> Result (list Item))
  (reset_check : string -> Result unit)
  (get : string -> Response Body)
  (write_file : list Item -> Result unit).

(** One round of the [while True] loop, up to the [break] test: the
    events of the page and the [next_link] and [last_link] found. *)
Definition fetch_page (cur_link : string)
  : Result (list Item * option string * option string) :=
  let response := get cur_link in
  raise_for_status response ;;
  etag ← get_resp_header response "etag";
  link ← get_resp_header response "link";
  let '(next_link, last_link) := extract_links (link_finditer link) in
  poll_interval ← get_resp_header response "x-poll-interval";
  ratelimit_remaining ← get_resp_header response "x-ratelimit-remaining";
  ratelimit_used ← get_resp_header response "x-ratelimit-used";
  ratelimit_limit ← get_resp_header response "x-ratelimit-limit";
  ratelimit_reset ← get_resp_header response "x-ratelimit-reset";
  reset_check ratelimit_reset ;;
  events ← json_events (content response);
  mret (events, next_link, last_link).

(** The [while True] loop with [fuel] rounds; [Ok None] when the rounds
    run out before the [break]. *)
Fixpoint fetch_loop (fuel : nat) (cur_link : string) (all_events : list Item)
  : Result (option (list Item)) :=
  match fuel with
  | O => mret None
  | S fuel' =>
      '(events, next_link, last_link) ← fetch_page cur_link;
      let all_events' := all_events ++ events in
      if falsy next_link || falsy last_link
         || (match last_link with Some l => String.eqb cur_link l | None => false end)
      then mret (Some all_events')
      else
        match next_link with
        | Some n => fetch_loop fuel' n all_events'
        | None => mret (Some all_events')
        end
  end.

(** [get_all_initial_events]: the list written to the cache file. *)
Definition get_all_initial_events (fuel : nat) : Result (option (list Item)) :=
  res ← fetch_loop fuel start_link [];
  match res with
  | Some all_events => write_file all_events ;; mret (Some all_events)
  | None => mret None
  end.

End Loop.

(** GitHub's [Link] header: [<url>; rel="rel"] entries joined by [", "]. *)
Definition link_entry (e : string * string) : list ascii :=
  "<"%char :: list_ascii_of_string e.1 ++ link_sep
    ++ list_ascii_of_string e.2 ++ [dquote].

Definition render_link (es : list (string * string)) : string :=
  match es with
  | [] => ""
  | e :: es' =>
      string_of_list_ascii
        (link_entry e ++ concat (map (fun e' => [","%char; " "%char] ++ link_entry e') es'))
  end.

(** An entry that can be written this way: a non-empty URL without ['>']
    or newline, a non-empty relation without a double quote or newline. *)
Definition link_entry_ok (e : string * string) : Prop :=
  e.1 <> "" /\ Forall (fun c => c <> ">"%char /\ c <> newline) (list_ascii_of_string e.1) /\
  e.2 <> "" /\ Forall (fun c => c <> dquote /\ c <> newline) (list_ascii_of_string e.2).

(** The response of a page the loop goes through without an exception:
    no error status, every header it asserts present and non-empty, a
    [Link] header written from [es], and the reset header and the body
    converted without error. *)
Definition page_ok {Body Item : Type}
  (json_events : Body -> Result (list Item)) (reset_check : string -> Result unit)
  (r : Response Body) (events : list Item) (es : list (string * string)) : Prop :=
  ~ (400 <= status_code r < 600)%Z /\
  es <> [] /\ Forall link_entry_ok es /\
  headers_get (resp_headers r) "link" = Some (render_link es) /\
  (forall h, h ∈ ["etag"; "x-poll-interval"; "x-ratelimit-remaining";
                  "x-ratelimit-used"; "x-ratelimit-limit"; "x-ratelimit-reset"] ->
     exists v, headers_get (resp_headers r) h = Some v /\ v <> "") /\
  (forall v, headers_get (resp_headers r) "x-ratelimit-reset" = Some v ->
     reset_check v = Ok tt) /\
  json_events (content r) = Ok events.

(** A server with three pages, as GitHub answers them: the URLs, and the
    headers of a page with a given [Link] header. *)
Definition page2_link : string :=
  "https://api.github.com/user/1/events?per_page=100&page=2".
Definition page3_link : string :=
  "https://api.github.com/user/1/events?per_page=100&page=3".

Definition sample_headers (link : string) : list (string * string) :=
  [("ETag", "W/0a1b"); ("Link", link); ("X-Poll-Interval", "60");
   ("X-RateLimit-Limit", "5000"); ("X-RateLimit-Remaining", "4998");
   ("X-RateLimit-Reset", "1706547600"); ("X-RateLimit-Used", "2")].

Definition sample_page (link : string) (events : list nat) : Response (list nat) :=
  {| status_code := 200; resp_headers := sample_headers link; content := events |}.

Definition sample_get (u : string) : Response (list nat) :=
  if String.eqb u start_link then
    sample_page (render_link [(page2_link, "next"); (page3_link, "last")]) [1; 2]
  else if String.eqb u page2_link then
    sample_page (render_link [(start_link, "prev"); (page3_link, "next");
                              (page3_link, "last"); (start_link, "first")]) [3]
  else
    sample_page (render_link [(page2_link, "prev"); (start_link, "first")]) [4].

(** A server whose only page has no [Link] header. *)
Definition single_page_get (u : string) : Response (list nat) :=
  {| status_code := 200;
     resp_headers :=
       [("ETag", "W/0a1b"); ("X-Poll-Interval", "60");
        ("X-RateLimit-Limit", "5000"); ("X-RateLimit-Remaining", "4999");
        ("X-RateLimit-Reset", "1706547600"); ("X-RateLimit-Used", "1")];
     content := [1; 2] |}.

End Fetch.

(* ===================================================================== *)
(** ** Proofs: the decoder *)
(* ===================================================================== *)

Module DecoderFacts.
Import Decoder.

Section WithSchemas.

Context {Raw : Type} (type_field : Raw -> option string)
  (envelope_valid : Raw -> bool) (payload_valid : Kind -> Raw -> bool).

Local Abbreviation Ev := (Event Raw).
Local Abbreviation validate_one := (Event_validate type_field envelope_valid payload_valid).
Local Abbreviation validate_all := (Events_validate type_field envelope_valid payload_valid).
Local Abbreviation light := (EventLight_validate type_field envelope_valid).
Local Abbreviation dispatch := (dispatch_type type_field envelope_valid payload_valid).
Local Abbreviation fb := (fallback type_field envelope_valid payload_valid).
Local Abbreviation load := (load_events type_field envelope_valid payload_valid).
Local Abbreviation mv := (model_validate type_field envelope_valid payload_valid).

Definition no_ctor : PyExn := TypeError "No constructor defined".

(** The [if]/[elif] chain selects the class the union's discriminator
    selects; a type outside the union makes the chain raise. *)
Lemma dispatch_type_union_tag (t : string) (r : Raw) :
  dispatch t r =
  match union_tag t with
  | Some k => Ret (mv k r)
  | None => Raise no_ctor
  end.
Proof.
  unfold dispatch_type, union_tag, Event_union. cbn [find kind_literal].
  repeat match goal with
  | |- context [String.eqb ?s t] =>
      rewrite (proj2 (String.eqb_neq s t)) by congruence
  | |- context [String.eqb t ?s] =>
      destruct (String.eqb_spec t s) as [->|?]; [reflexivity|]
  end.
  reflexivity.
Qed.

Lemma Event_validate_inv (r : Raw) (e : Ev) :
  validate_one r = Some e ->
  exists t k, light r = Some t /\ union_tag t = Some k /\ mv k r = Some e.
Proof.
  unfold Event_validate, EventLight_validate.
  destruct (type_field r) as [t|] eqn:Ht; [|discriminate].
  destruct (union_tag t) as [k|] eqn:Hk; [|discriminate].
  intros Hm. exists t, k. split; [|tauto].
  unfold model_validate in Hm.
  destruct (envelope_valid r); [reflexivity|discriminate].
Qed.

(** A known type: the fallback dispatch decodes exactly what the union does. *)
Lemma dispatch_known (r : Raw) (t : string) (k : Kind) :
  light r = Some t -> union_tag t = Some k -> dispatch t r = Ret (validate_one r).
Proof.
  intros Hl Hk. rewrite dispatch_type_union_tag, Hk. f_equal.
  unfold EventLight_validate in Hl. unfold Event_validate.
  destruct (envelope_valid r); [|discriminate]. rewrite Hl, Hk. reflexivity.
Qed.

(** The only exception the fallback loop can raise. *)
Lemma fallback_raises_no_ctor (rs : list Raw) (x : PyExn) :
  fb rs = Raise x -> x = no_ctor.
Proof.
  induction rs as [|r rs IH]; simpl; [discriminate|].
  destruct (light r) as [t|]; [|exact IH].
  rewrite dispatch_type_union_tag.
  destruct (union_tag t) as [k|]; [|congruence].
  destruct (mv k r) as [e|]; [|exact IH].
  destruct (fb rs); [discriminate|]. intros [= <-]. apply IH. reflexivity.
Qed.

(** The loop runs its records in sequence. *)
Lemma fallback_app (rs1 rs2 : list Raw) :
  fb (rs1 ++ rs2) =
  match fb rs1 with
  | Ret es1 => match fb rs2 with Ret es2 => Ret (es1 ++ es2) | Raise x => Raise x end
  | Raise x => Raise x
  end.
Proof.
  induction rs1 as [|r rs1 IH]; simpl.
  - destruct (fb rs2); reflexivity.
  - destruct (light r) as [t|]; [|exact IH].
    destruct (dispatch t r) as [[e|]|x]; [|exact IH|reflexivity].
    rewrite IH. destruct (fb rs1), (fb rs2); reflexivity.
Qed.

(** A wholly valid batch decodes record by record to the same list. *)
Lemma fallback_of_valid (rs : list Raw) (es : list Ev) :
  validate_all rs = Some es -> fb rs = Ret es.
Proof.
  revert es. induction rs as [|r rs IH]; intros es; simpl.
  - intros [= <-]. reflexivity.
  - destruct (validate_one r) as [e|] eqn:He; [|discriminate].
    destruct (validate_all rs) as [es'|] eqn:Hes; [|discriminate].
    intros [= <-].
    destruct (Event_validate_inv r e He) as (t & k & Hl & Hk & _).
    rewrite Hl, (dispatch_known r t k Hl Hk), He, (IH es' eq_refl). reflexivity.
Qed.

(** An envelope-valid record whose type is outside the union makes the
    fallback loop raise, whatever comes around it. *)
Lemma unknown_type_raises (rs1 rs2 : list Raw) (r : Raw) (t : string) :
  envelope_valid r = true -> type_field r = Some t -> union_tag t = None ->
  load (rs1 ++ r :: rs2) = Raise no_ctor.
Proof.
  intros Henv Ht Hu. unfold load_events.
  assert (Hv : validate_all (rs1 ++ r :: rs2) = None).
  { induction rs1 as [|r' rs1 IH]; simpl.
    - unfold Event_validate at 1. rewrite Ht, Hu. reflexivity.
    - rewrite IH. destruct (validate_one r'); reflexivity. }
  rewrite Hv, fallback_app. simpl.
  unfold EventLight_validate at 1. rewrite Henv, Ht, dispatch_type_union_tag, Hu.
  destruct (fb rs1) eqn:H1; [reflexivity|].
  f_equal. apply (fallback_raises_no_ctor rs1). exact H1.
Qed.

(** A malformed record that is not of an unknown type (its envelope fails,
    or it names a class of the union) is dropped and nothing else is. *)
Lemma one_malformed_known_dropped (rs1 rs2 : list Raw) (r : Raw) (es1 es2 : list Ev) :
  validate_all rs1 = Some es1 -> validate_all rs2 = Some es2 ->
  validate_one r = None ->
  (forall t, light r = Some t -> union_tag t <> None) ->
  load (rs1 ++ r :: rs2) = Ret (es1 ++ es2).
Proof.
  intros H1 H2 Hr Hknown. unfold load_events.
  assert (Hv : validate_all (rs1 ++ r :: rs2) = None).
  { clear H1. revert es1. induction rs1 as [|r' rs1 IH]; intros es1; simpl.
    - rewrite Hr. reflexivity.
    - rewrite (IH es1). destruct (validate_one r'); reflexivity. }
  rewrite Hv, fallback_app, (fallback_of_valid rs1 es1 H1). simpl.
  destruct (light r) as [t|] eqn:Hl.
  - destruct (union_tag t) as [k|] eqn:Hk; [|exfalso; exact (Hknown t eq_refl Hk)].
    rewrite (dispatch_known r t k Hl Hk), Hr, (fallback_of_valid rs2 es2 H2).
    reflexivity.
  - rewrite (fallback_of_valid rs2 es2 H2). reflexivity.
Qed.

End WithSchemas.

End DecoderFacts.

(* ===================================================================== *)
(** ** Proofs: the store of aggregates *)
(* ===================================================================== *)

Module StoreFacts.
Import Aggregation Spec.

Lemma points_to_alt (st : State) (c : Coll) (rn key : string) (l : loc) :
  points_to st c rn key l <-> coll c (get_repo (repositories st) rn) !! key = Some l.
Proof.
  unfold points_to, get_repo. split.
  - intros (r & Hr & Hl). rewrite Hr. exact Hl.
  - destruct (repositories st !! rn) as [r|] eqn:Hr.
    + intros Hl. exists r. split; [reflexivity|exact Hl].
    + destruct c; simpl; rewrite lookup_empty; discriminate.
Qed.

Lemma lookup_obj_alt (st : State) (c : Coll) (rn key : string) :
  lookup_obj st c rn key =
  (coll c (get_repo (repositories st) rn) !! key) ≫= (fun l => heap st !! l).
Proof.
  unfold lookup_obj, get_repo.
  destruct (repositories st !! rn) as [r|]; simpl; [reflexivity|].
  destruct c; simpl; rewrite lookup_empty; reflexivity.
Qed.

Lemma get_repo_insert (R : gmap string Repository) (rn rn' : string) (r : Repository) :
  get_repo (<[rn := r]> R) rn' = if decide (rn = rn') then r else get_repo R rn'.
Proof.
  unfold get_repo. rewrite lookup_insert. destruct (decide (rn = rn')); reflexivity.
Qed.

Lemma coll_set_coll (c c' : Coll) (m : gmap string loc) (r : Repository) :
  coll c' (set_coll c m r) = if decide (c = c') then m else coll c' r.
Proof. destruct c, c'; reflexivity. Qed.

(** Resolving or creating an aggregate: the new state is well formed, the
    entry [key] points to the object, other entries are kept, and every
    existing object is kept. *)
Lemma get_or_create_spec (c : Coll) (st : State) (rn key : string) (fresh : Obj)
  (st1 : State) (l : loc) :
  wf st -> obj_coll fresh = c -> get_or_create c st rn key fresh = (st1, l) ->
  wf st1 /\
  points_to st1 c rn key l /\
  (forall c' rn' k' l', points_to st1 c' rn' k' l' <->
     points_to st c' rn' k' l' \/ (c' = c /\ rn' = rn /\ k' = key /\ l' = l)) /\
  (forall l' o, heap st !! l' = Some o -> heap st1 !! l' = Some o) /\
  heap st1 !! l = Some (default fresh (lookup_obj st c rn key)).
Proof.
  intros (Hbound & Htyp & Hinj) Hfresh. unfold get_or_create.
  destruct (coll c (get_repo (repositories st) rn) !! key) as [l0|] eqn:Hk;
    intros [= <- <-].
  - (* the aggregate exists: the repositories are unchanged up to a
       re-insertion of the same repository *)
    assert (Hpt : forall c' rn' k' l',
      points_to {| repositories := <[rn := get_repo (repositories st) rn]> (repositories st);
                   heap := heap st; next_loc := next_loc st |} c' rn' k' l'
      <-> points_to st c' rn' k' l').
    { intros c' rn' k' l'. rewrite !points_to_alt. simpl.
      rewrite get_repo_insert. destruct (decide (rn = rn')) as [<-|]; reflexivity. }
    assert (Hp0 : points_to st c rn key l0) by (apply points_to_alt; exact Hk).
    destruct (Htyp _ _ _ _ Hp0) as (o & Ho & _).
    split; [|split; [|split; [|split]]].
    + split; [|split].
      * exact Hbound.
      * intros c' rn' k' l' H. apply Hpt in H. exact (Htyp _ _ _ _ H).
      * intros c1 rn1 k1 c2 rn2 k2 l' H1 H2. apply Hpt in H1, H2. exact (Hinj _ _ _ _ _ _ _ H1 H2).
    + apply Hpt. exact Hp0.
    + intros c' rn' k' l'. rewrite Hpt. split; [tauto|].
      intros [H|(-> & -> & -> & ->)]; [exact H|exact Hp0].
    + intros l' o' H. exact H.
    + simpl. rewrite lookup_obj_alt, Hk. simpl. rewrite Ho. reflexivity.
  - set (repo := get_repo (repositories st) rn).
    set (st1 := {| repositories := <[rn := set_coll c (<[key := next_loc st]> (coll c repo)) repo]>
                                     (repositories st);
                   heap := <[next_loc st := fresh]> (heap st);
                   next_loc := S (next_loc st) |}).
    assert (Hpt : forall c' rn' k' l', points_to st1 c' rn' k' l' <->
              points_to st c' rn' k' l' \/
              (c' = c /\ rn' = rn /\ k' = key /\ l' = next_loc st)).
    { intros c' rn' k' l'. rewrite !points_to_alt. simpl.
      rewrite get_repo_insert. destruct (decide (rn = rn')) as [<-|Hrn].
      - rewrite coll_set_coll. destruct (decide (c = c')) as [<-|Hc].
        + rewrite lookup_insert. destruct (decide (key = k')) as [<-|Hkk].
          * split; [intros [= <-]; right; tauto|].
            intros [H|(_ & _ & _ & ->)]; [|reflexivity].
            congruence.
          * split; [tauto|]. intros [H|(_ & _ & ? & _)]; [exact H|congruence].
        + split; [tauto|]. intros [H|(? & _)]; [exact H|congruence].
      - split; [tauto|]. intros [H|(_ & ? & _)]; [exact H|congruence]. }
    assert (Hold : forall c' rn' k' l', points_to st c' rn' k' l' -> (l' < next_loc st)%nat).
    { intros c' rn' k' l' H. destruct (Htyp _ _ _ _ H) as (o & Ho & _). exact (Hbound _ _ Ho). }
    split; [|split; [|split; [|split]]].
    + split; [|split].
      * simpl. intros l' o H. rewrite lookup_insert in H.
        case_decide as Heq; [lia|].
        specialize (Hbound _ _ H). lia.
      * intros c' rn' k' l' H. apply Hpt in H as [H|(-> & _ & _ & ->)].
        -- destruct (Htyp _ _ _ _ H) as (o & Ho & Hc). exists o. split; [|exact Hc].
           simpl. rewrite lookup_insert_ne; [exact Ho|]. specialize (Hold _ _ _ _ H). lia.
        -- exists fresh. split; [apply lookup_insert_eq|exact Hfresh].
      * intros c1 rn1 k1 c2 rn2 k2 l' H1 H2.
        apply Hpt in H1 as [H1|(-> & -> & -> & ->)]; apply Hpt in H2 as [H2|(-> & -> & -> & Heq)].
        -- exact (Hinj _ _ _ _ _ _ _ H1 H2).
        -- subst l'. specialize (Hold _ _ _ _ H1). lia.
        -- specialize (Hold _ _ _ _ H2). lia.
        -- tauto.
    + apply Hpt. right. tauto.
    + exact Hpt.
    + intros l' o H. simpl. rewrite lookup_insert_ne; [exact H|].
      specialize (Hbound _ _ H). lia.
    + simpl. rewrite lookup_insert_eq, lookup_obj_alt. unfold repo. rewrite Hk. reflexivity.
Qed.

Lemma points_to_update_obj (g : Obj -> Obj) (l : loc) (st : State) c rn key l' :
  points_to (update_obj g l st) c rn key l' <-> points_to st c rn key l'.
Proof. reflexivity. Qed.

Lemma wf_update_obj (g : Obj -> Obj) (l : loc) (st : State) :
  (forall o, obj_coll (g o) = obj_coll o) -> wf st -> wf (update_obj g l st).
Proof.
  intros Hg (Hbound & Htyp & Hinj). split; [|split].
  - simpl. intros l' o. rewrite lookup_alter. case_decide as Heq.
    + subst l'. intros H.
      apply fmap_Some in H as (o' & Ho & _). exact (Hbound _ _ Ho).
    + exact (Hbound l' o).
  - intros c rn key l' H. destruct (Htyp _ _ _ _ H) as (o & Ho & Hc). simpl.
    rewrite lookup_alter. case_decide as Heq.
    + subst l'. rewrite Ho. exists (g o). simpl. rewrite Hg. tauto.
    + exists o. tauto.
  - exact Hinj.
Qed.

(** [touch]: resolve-or-create, then mutate. The entry [key] of dict [c]
    of repository [rn] ends up holding [g] of its former object (or of
    [fresh]); every other entry reads as before; every existing object is
    kept or mutated with [g]. *)
Lemma touch_spec (c : Coll) (st : State) (rn key : string) (fresh : Obj) (g : Obj -> Obj) :
  wf st -> obj_coll fresh = c -> (forall o, obj_coll (g o) = obj_coll o) ->
  wf (touch c st rn key fresh g) /\
  lookup_obj (touch c st rn key fresh g) c rn key
    = Some (g (default fresh (lookup_obj st c rn key))) /\
  (forall c' rn' k', (c', rn', k') <> (c, rn, key) ->
     lookup_obj (touch c st rn key fresh g) c' rn' k' = lookup_obj st c' rn' k') /\
  (forall l' o, heap st !! l' = Some o ->
     heap (touch c st rn key fresh g) !! l' = Some o
     \/ heap (touch c st rn key fresh g) !! l' = Some (g o)).
Proof.
  intros Hwf Hfresh Hg. unfold touch.
  destruct (get_or_create c st rn key fresh) as [st1 l] eqn:Hgc.
  destruct (get_or_create_spec c st rn key fresh st1 l Hwf Hfresh Hgc)
    as (Hwf1 & Hpt & Hiff & Hkeep & Hl).
  pose proof Hwf1 as (_ & Htyp1 & Hinj1).
  split; [|split; [|split]].
  - apply wf_update_obj; assumption.
  - rewrite lookup_obj_alt. simpl. apply points_to_alt in Hpt. rewrite Hpt. simpl.
    rewrite lookup_alter_eq, Hl. reflexivity.
  - intros c' rn' k' Hne. rewrite !lookup_obj_alt. simpl.
    destruct (coll c' (get_repo (repositories st1) rn') !! k') as [l'|] eqn:H1.
    + assert (Hp1 : points_to st1 c' rn' k' l') by (apply points_to_alt; exact H1).
      assert (Hp0 : points_to st c' rn' k' l').
      { apply Hiff in Hp1 as [H|(-> & -> & -> & _)]; [exact H|congruence]. }
      apply points_to_alt in Hp0. rewrite Hp0. simpl.
      rewrite lookup_alter_ne.
      * apply points_to_alt in Hp0.
        destruct Hwf as (_ & Htyp & _). destruct (Htyp _ _ _ _ Hp0) as (o & Ho & _).
        rewrite Ho. apply Hkeep. exact Ho.
      * intros ->. destruct (Hinj1 _ _ _ _ _ _ _ Hpt Hp1) as (-> & -> & ->). congruence.
    + destruct (coll c' (get_repo (repositories st) rn') !! k') as [l'|] eqn:H0;
        [|reflexivity].
      assert (Hp0 : points_to st c' rn' k' l') by (apply points_to_alt; exact H0).
      assert (Hp1 : points_to st1 c' rn' k' l') by (apply Hiff; left; exact Hp0).
      apply points_to_alt in Hp1. congruence.
  - intros l' o Ho. simpl. rewrite lookup_alter.
    case_decide as Heq.
    + subst l'. rewrite (Hkeep _ _ Ho). right. reflexivity.
    + left. exact (Hkeep _ _ Ho).
Qed.

(** Under [wf], the pull-request dicts only hold [PullRequest] objects and
    the issue dicts only [Issue] objects. *)
Lemma lookup_obj_pr (st : State) (rn key : string) :
  wf st -> lookup_obj st CPR rn key = OPR <$> lookup_pr st rn key.
Proof.
  intros (_ & Htyp & _). unfold lookup_pr.
  rewrite !lookup_obj_alt.
  destruct (coll CPR (get_repo (repositories st) rn) !! key) as [l|] eqn:H; [|reflexivity].
  simpl. apply points_to_alt in H. destruct (Htyp _ _ _ _ H) as (o & Ho & Hc).
  rewrite Ho. destruct o; [reflexivity|discriminate].
Qed.

Lemma lookup_obj_issue (st : State) (rn key : string) :
  wf st -> lookup_obj st CIssue rn key = OIssue <$> lookup_issue st rn key.
Proof.
  intros (_ & Htyp & _). unfold lookup_issue.
  rewrite !lookup_obj_alt.
  destruct (coll CIssue (get_repo (repositories st) rn) !! key) as [l|] eqn:H; [|reflexivity].
  simpl. apply points_to_alt in H. destruct (Htyp _ _ _ _ H) as (o & Ho & Hc).
  rewrite Ho. destruct o; [discriminate|reflexivity].
Qed.

Lemma wf_empty : wf empty_state.
Proof.
  split; [|split].
  - intros l o H. simpl in H. rewrite lookup_empty in H. discriminate.
  - intros c rn key l H. apply points_to_alt in H. simpl in H. unfold get_repo in H.
    rewrite lookup_empty in H. destruct c; simpl in H; rewrite lookup_empty in H; discriminate.
  - intros c1 rn1 k1 c2 rn2 k2 l H. apply points_to_alt in H. simpl in H. unfold get_repo in H.
    rewrite lookup_empty in H. destruct c1; simpl in H; rewrite lookup_empty in H; discriminate.
Qed.

End StoreFacts.

(* ===================================================================== *)
(** ** Proofs: one iteration of each loop *)
(* ===================================================================== *)

Module StepFacts.
Import Aggregation Spec StoreFacts.

Lemma pull_request_step_touch (st : State) (b : EventBase) (p : PullRequestEventPayload) :
  pull_request_step st b p =
  touch CPR st (repo_name (ev_repo b)) (str (pr_number (pre_pull_request p)))
    (OPR (pr_from_pr_event p)) (on_pr (pr_event_update b p)).
Proof.
  unfold pull_request_step, touch, pr_event_update.
  destruct (get_or_create _ _ _ _ _) as [st1 l].
  destruct (pr_body (pre_pull_request p)) as [body|]; [destruct (String.eqb body "")|];
    unfold update_obj; simpl; f_equal;
    try (rewrite alter_alter_eq); apply alter_ext; intros [q|i] _; reflexivity.
Qed.

Lemma issue_comment_step_touch (st : State) (b : EventBase) (p : IssueCommentEventPayload) :
  issue_comment_step st b p =
  match issue_pull_request (ice_issue p) with
  | Some _ =>
      touch CPR st (repo_name (ev_repo b)) (str (Models.issue_number (ice_issue p)))
        (OPR (pr_from_comment p)) (on_pr (pr_append_action (pr_comment_action b p)))
  | None =>
      touch CIssue st (repo_name (ev_repo b)) (str (Models.issue_number (ice_issue p)))
        (OIssue (issue_from_comment p))
        (on_issue (issue_append_action (issue_comment_action b p)))
  end.
Proof.
  unfold issue_comment_step, touch.
  destruct (issue_pull_request (ice_issue p)); reflexivity.
Qed.

Lemma on_pr_coll (f : PullRequest -> PullRequest) (o : Obj) :
  obj_coll (on_pr f o) = obj_coll o.
Proof. destruct o; reflexivity. Qed.

Lemma on_issue_coll (f : Issue -> Issue) (o : Obj) :
  obj_coll (on_issue f o) = obj_coll o.
Proof. destruct o; reflexivity. Qed.

Lemma wf_pull_request_step (st : State) (b : EventBase) (p : PullRequestEventPayload) :
  wf st -> wf (pull_request_step st b p).
Proof.
  intros Hwf. rewrite pull_request_step_touch.
  exact (proj1 (touch_spec CPR st _ _ (OPR _) _ Hwf eq_refl (on_pr_coll _))).
Qed.

Lemma wf_issue_comment_step (st : State) (b : EventBase) (p : IssueCommentEventPayload) :
  wf st -> wf (issue_comment_step st b p).
Proof.
  intros Hwf. rewrite issue_comment_step_touch.
  destruct (issue_pull_request (ice_issue p)).
  - exact (proj1 (touch_spec CPR st _ _ (OPR _) _ Hwf eq_refl (on_pr_coll _))).
  - exact (proj1 (touch_spec CIssue st _ _ (OIssue _) _ Hwf eq_refl (on_issue_coll _))).
Qed.

Lemma wf_step (st : State) (s : Step) : wf st -> wf (step st s).
Proof. destruct s; [apply wf_pull_request_step|apply wf_issue_comment_step]. Qed.

Lemma wf_run (steps : list Step) (st : State) : wf st -> wf (run steps st).
Proof.
  revert st. induction steps as [|s steps IH]; intros st Hwf; simpl; [exact Hwf|].
  apply IH, wf_step, Hwf.
Qed.

(** Reading a [PullRequest] / an [Issue] after [touch]. *)
Lemma touch_lookup_pr (st : State) (rn key : string) (fresh : PullRequest)
  (f : PullRequest -> PullRequest) (rn' key' : string) :
  wf st ->
  lookup_pr (touch CPR st rn key (OPR fresh) (on_pr f)) rn' key' =
  if decide (rn = rn' /\ key = key')
  then Some (f (default fresh (lookup_pr st rn' key')))
  else lookup_pr st rn' key'.
Proof.
  intros Hwf.
  destruct (touch_spec CPR st rn key (OPR fresh) (on_pr f) Hwf eq_refl (on_pr_coll _))
    as (_ & Htgt & Hoth & _).
  unfold lookup_pr at 1. case_decide as Hk.
  - destruct Hk as [<- <-]. rewrite Htgt, lookup_obj_pr by exact Hwf.
    destruct (lookup_pr st rn key); reflexivity.
  - rewrite Hoth by (intros [= <- <-]; tauto). reflexivity.
Qed.

Lemma touch_lookup_pr_other (st : State) (rn key : string) (fresh : Issue)
  (f : Issue -> Issue) (rn' key' : string) :
  wf st ->
  lookup_pr (touch CIssue st rn key (OIssue fresh) (on_issue f)) rn' key' =
  lookup_pr st rn' key'.
Proof.
  intros Hwf.
  destruct (touch_spec CIssue st rn key (OIssue fresh) (on_issue f) Hwf eq_refl (on_issue_coll _))
    as (_ & _ & Hoth & _).
  unfold lookup_pr. rewrite Hoth by discriminate. reflexivity.
Qed.

Lemma touch_lookup_issue (st : State) (rn key : string) (fresh : Issue)
  (f : Issue -> Issue) (rn' key' : string) :
  wf st ->
  lookup_issue (touch CIssue st rn key (OIssue fresh) (on_issue f)) rn' key' =
  if decide (rn = rn' /\ key = key')
  then Some (f (default fresh (lookup_issue st rn' key')))
  else lookup_issue st rn' key'.
Proof.
  intros Hwf.
  destruct (touch_spec CIssue st rn key (OIssue fresh) (on_issue f) Hwf eq_refl (on_issue_coll _))
    as (_ & Htgt & Hoth & _).
  unfold lookup_issue at 1. case_decide as Hk.
  - destruct Hk as [<- <-]. rewrite Htgt, lookup_obj_issue by exact Hwf.
    destruct (lookup_issue st rn key); reflexivity.
  - rewrite Hoth by (intros [= <- <-]; tauto). reflexivity.
Qed.

Lemma touch_lookup_issue_other (st : State) (rn key : string) (fresh : PullRequest)
  (f : PullRequest -> PullRequest) (rn' key' : string) :
  wf st ->
  lookup_issue (touch CPR st rn key (OPR fresh) (on_pr f)) rn' key' =
  lookup_issue st rn' key'.
Proof.
  intros Hwf.
  destruct (touch_spec CPR st rn key (OPR fresh) (on_pr f) Hwf eq_refl (on_pr_coll _))
    as (_ & _ & Hoth & _).
  unfold lookup_issue. rewrite Hoth by discriminate. reflexivity.
Qed.

Lemma eqb_and_decide (a b c d : string) :
  (String.eqb a b && String.eqb c d) = bool_decide (a = b /\ c = d).
Proof.
  destruct (String.eqb_spec a b), (String.eqb_spec c d); simpl;
    rewrite ?bool_decide_eq_true_2, ?bool_decide_eq_false_2 by tauto; reflexivity.
Qed.

Lemma pull_request_step_lookup_pr (st : State) (b : EventBase) (p : PullRequestEventPayload)
  (rn key : string) :
  wf st ->
  lookup_pr (pull_request_step st b p) rn key =
  if pr_event_targets rn key (b, p) then pr_view_step (lookup_pr st rn key) (b, p)
  else lookup_pr st rn key.
Proof.
  intros Hwf. rewrite pull_request_step_touch, touch_lookup_pr by exact Hwf.
  unfold pr_event_targets, pr_view_step. simpl. rewrite eqb_and_decide.
  case_decide as H1; rewrite ?bool_decide_eq_true_2, ?bool_decide_eq_false_2 by tauto;
    reflexivity.
Qed.

Lemma pull_request_step_lookup_issue (st : State) (b : EventBase)
  (p : PullRequestEventPayload) (rn key : string) :
  wf st -> lookup_issue (pull_request_step st b p) rn key = lookup_issue st rn key.
Proof.
  intros Hwf. rewrite pull_request_step_touch. apply touch_lookup_issue_other, Hwf.
Qed.

Lemma issue_comment_step_lookup_pr (st : State) (b : EventBase)
  (p : IssueCommentEventPayload) (rn key : string) :
  wf st ->
  lookup_pr (issue_comment_step st b p) rn key =
  if comment_pr_targets rn key (b, p) then comment_view_step (lookup_pr st rn key) (b, p)
  else lookup_pr st rn key.
Proof.
  intros Hwf. rewrite issue_comment_step_touch.
  unfold comment_pr_targets, comment_view_step. simpl.
  destruct (issue_pull_request (ice_issue p)).
  - rewrite touch_lookup_pr by exact Hwf. rewrite andb_true_r, eqb_and_decide.
    case_decide; rewrite ?bool_decide_eq_true_2, ?bool_decide_eq_false_2 by tauto;
      reflexivity.
  - rewrite touch_lookup_pr_other by exact Hwf. rewrite andb_false_r. reflexivity.
Qed.

Lemma issue_comment_step_lookup_issue (st : State) (b : EventBase)
  (p : IssueCommentEventPayload) (rn key : string) :
  wf st ->
  lookup_issue (issue_comment_step st b p) rn key =
  if comment_issue_targets rn key (b, p)
  then Some (issue_append_action (issue_comment_action b p)
               (default (issue_from_comment p) (lookup_issue st rn key)))
  else lookup_issue st rn key.
Proof.
  intros Hwf. rewrite issue_comment_step_touch.
  unfold comment_issue_targets. simpl.
  destruct (issue_pull_request (ice_issue p)).
  - rewrite touch_lookup_issue_other by exact Hwf. rewrite andb_false_r. reflexivity.
  - rewrite touch_lookup_issue by exact Hwf. rewrite andb_true_r, eqb_and_decide.
    case_decide; rewrite ?bool_decide_eq_true_2, ?bool_decide_eq_false_2 by tauto;
      reflexivity.
Qed.

Lemma pr_frame_refl (q : PullRequest) : pr_frame q q.
Proof.
  split; [repeat split|]. exists []. rewrite app_nil_r. reflexivity.
Qed.

Lemma pr_frame_trans (q1 q2 q3 : PullRequest) :
  pr_frame q1 q2 -> pr_frame q2 q3 -> pr_frame q1 q3.
Proof.
  intros ((H1 & H2 & H3 & H4 & H5) & s1 & Hs1) ((G1 & G2 & G3 & G4 & G5) & s2 & Hs2).
  split; [repeat split; congruence|]. exists (s1 ++ s2).
  rewrite Hs2, Hs1, app_assoc. reflexivity.
Qed.

Lemma pr_frame_append (a : Action) (q : PullRequest) :
  pr_frame q (pr_append_action a q).
Proof. split; [repeat split|]. exists [a]. reflexivity. Qed.

Lemma pr_frame_event_update (b : EventBase) (p : PullRequestEventPayload) (q : PullRequest) :
  pr_frame q (pr_event_update b p q).
Proof.
  unfold pr_event_update.
  destruct (pr_body (pre_pull_request p)) as [body|]; [destruct (String.eqb body "")|];
    (split; [repeat split|]); exists [pr_event_action b p]; reflexivity.
Qed.

(** An existing [PullRequest] object stays one, with its fixed fields kept
    and its actions extended, through one iteration of either loop. *)
Lemma step_pr_frame (st : State) (s : Step) (l : loc) (q : PullRequest) :
  wf st -> heap st !! l = Some (OPR q) ->
  exists q', heap (step st s) !! l = Some (OPR q') /\ pr_frame q q'.
Proof.
  intros Hwf Hl. destruct s as [b p|b p]; simpl.
  - rewrite pull_request_step_touch.
    destruct (touch_spec CPR st (repo_name (ev_repo b)) (str (pr_number (pre_pull_request p)))
                (OPR (pr_from_pr_event p)) (on_pr (pr_event_update b p))
                Hwf eq_refl (on_pr_coll _)) as (_ & _ & _ & Hkeep).
    destruct (Hkeep l _ Hl) as [H|H]; eexists; (split; [exact H|]).
    + apply pr_frame_refl.
    + apply pr_frame_event_update.
  - rewrite issue_comment_step_touch. destruct (issue_pull_request (ice_issue p)).
    + destruct (touch_spec CPR st (repo_name (ev_repo b)) (str (Models.issue_number (ice_issue p)))
                  (OPR (pr_from_comment p))
                  (on_pr (pr_append_action (pr_comment_action b p)))
                  Hwf eq_refl (on_pr_coll _)) as (_ & _ & _ & Hkeep).
      destruct (Hkeep l _ Hl) as [H|H]; eexists; (split; [exact H|]).
      * apply pr_frame_refl.
      * apply pr_frame_append.
    + destruct (touch_spec CIssue st (repo_name (ev_repo b))
                  (str (Models.issue_number (ice_issue p))) (OIssue (issue_from_comment p))
                  (on_issue (issue_append_action (issue_comment_action b p)))
                  Hwf eq_refl (on_issue_coll _)) as (_ & _ & _ & Hkeep).
      destruct (Hkeep l _ Hl) as [H|H]; eexists; (split; [exact H|]); apply pr_frame_refl.
Qed.

Lemma run_pr_frame (steps : list Step) (st : State) (l : loc) (q : PullRequest) :
  wf st -> heap st !! l = Some (OPR q) ->
  exists q', heap (run steps st) !! l = Some (OPR q') /\ pr_frame q q'.
Proof.
  revert st q. induction steps as [|s steps IH]; intros st q Hwf Hl; simpl.
  - exists q. split; [exact Hl|apply pr_frame_refl].
  - destruct (step_pr_frame st s l q Hwf Hl) as (q1 & H1 & F1).
    destruct (IH (step st s) q1 (wf_step st s Hwf) H1) as (q2 & H2 & F2).
    exists q2. split; [exact H2|exact (pr_frame_trans _ _ _ F1 F2)].
Qed.

End StepFacts.

(* ===================================================================== *)
(** ** Proofs: the two loops of [main] *)
(* ===================================================================== *)

Module RunFacts.
Import Aggregation Spec StoreFacts StepFacts.

Abbreviation pr_loop := (fold_left (fun st '(b, p) => pull_request_step st b p)).
Abbreviation comment_loop := (fold_left (fun st '(b, p) => issue_comment_step st b p)).

Lemma aggregate_run (events : list Event) :
  aggregate events = run (main_steps events) empty_state.
Proof.
  unfold aggregate, main_steps, run. rewrite fold_left_app.
  assert (HA : forall L st, fold_left step (map (fun '(b, p) => SPullRequest b p) L) st
                            = pr_loop L st).
  { induction L as [|[b p] L IH]; intros st; simpl; [reflexivity|apply IH]. }
  assert (HB : forall L st, fold_left step (map (fun '(b, p) => SIssueComment b p) L) st
                            = comment_loop L st).
  { induction L as [|[b p] L IH]; intros st; simpl; [reflexivity|apply IH]. }
  rewrite HA, HB. reflexivity.
Qed.

Lemma wf_aggregate (events : list Event) : wf (aggregate events).
Proof. rewrite aggregate_run. apply wf_run, wf_empty. Qed.

Lemma wf_pr_loop (L : list (EventBase * PullRequestEventPayload)) (st : State) :
  wf st -> wf (pr_loop L st).
Proof.
  revert st. induction L as [|[b p] L IH]; intros st Hwf; simpl; [exact Hwf|].
  apply IH, wf_pull_request_step, Hwf.
Qed.

Lemma pr_loop_lookup_pr (L : list (EventBase * PullRequestEventPayload)) (st : State)
  (rn key : string) :
  wf st ->
  lookup_pr (pr_loop L st) rn key =
  fold_left pr_view_step (List.filter (pr_event_targets rn key) L) (lookup_pr st rn key).
Proof.
  revert st. induction L as [|[b p] L IH]; intros st Hwf; simpl; [reflexivity|].
  rewrite IH by (apply wf_pull_request_step, Hwf).
  rewrite pull_request_step_lookup_pr by exact Hwf.
  destruct (pr_event_targets rn key (b, p)); reflexivity.
Qed.

Lemma comment_loop_lookup_pr (L : list (EventBase * IssueCommentEventPayload)) (st : State)
  (rn key : string) :
  wf st ->
  lookup_pr (comment_loop L st) rn key =
  fold_left comment_view_step (List.filter (comment_pr_targets rn key) L)
    (lookup_pr st rn key).
Proof.
  revert st. induction L as [|[b p] L IH]; intros st Hwf; simpl; [reflexivity|].
  rewrite IH by (apply wf_issue_comment_step, Hwf).
  rewrite issue_comment_step_lookup_pr by exact Hwf.
  destruct (comment_pr_targets rn key (b, p)); reflexivity.
Qed.

Lemma lookup_pr_empty (rn key : string) : lookup_pr empty_state rn key = None.
Proof.
  unfold lookup_pr, lookup_obj. simpl. rewrite lookup_empty. reflexivity.
Qed.

(** The [PullRequest] under [key] in [rn] after both loops, as a fold of
    the events that reach it. *)
Lemma aggregate_lookup_pr (events : list Event) (rn key : string) :
  lookup_pr (aggregate events) rn key =
  fold_left comment_view_step (List.filter (comment_pr_targets rn key) (comment_pass events))
    (fold_left pr_view_step (List.filter (pr_event_targets rn key) (pr_pass events)) None).
Proof.
  unfold aggregate.
  rewrite comment_loop_lookup_pr by (apply wf_pr_loop, wf_empty).
  rewrite pr_loop_lookup_pr by (apply wf_empty).
  rewrite lookup_pr_empty. reflexivity.
Qed.

Lemma same_fixed_fields_trans (q1 q2 q3 : PullRequest) :
  same_fixed_fields q1 q2 -> same_fixed_fields q2 q3 -> same_fixed_fields q1 q3.
Proof. unfold same_fixed_fields. intuition congruence. Qed.

Lemma same_fixed_fields_refl (q : PullRequest) : same_fixed_fields q q.
Proof. repeat split. Qed.

Lemma pr_event_update_shape (b : EventBase) (p : PullRequestEventPayload) (q : PullRequest) :
  same_fixed_fields q (pr_event_update b p q) /\
  actions (pr_event_update b p q) = actions q ++ [pr_event_action b p].
Proof.
  unfold pr_event_update.
  destruct (pr_body (pre_pull_request p)) as [body|]; [destruct (String.eqb body "")|];
    (split; [repeat split|reflexivity]).
Qed.

Lemma pr_view_fold_Some (A : list (EventBase * PullRequestEventPayload)) (q : PullRequest) :
  exists q', fold_left pr_view_step A (Some q) = Some q'
    /\ same_fixed_fields q q' /\ actions q' = actions q ++ map pr_act A.
Proof.
  revert q. induction A as [|e A IH]; intros q; simpl.
  - exists q. rewrite app_nil_r. split; [reflexivity|split; [apply same_fixed_fields_refl|reflexivity]].
  - destruct (pr_event_update_shape (fst e) (snd e) q) as [F Ha].
    destruct (IH (pr_event_update (fst e) (snd e) q)) as (q' & H & F' & Ha').
    exists q'. split; [exact H|split; [exact (same_fixed_fields_trans _ _ _ F F')|]].
    rewrite Ha', Ha, <- app_assoc. reflexivity.
Qed.

Lemma comment_view_fold_Some (B : list (EventBase * IssueCommentEventPayload)) (q : PullRequest) :
  exists q', fold_left comment_view_step B (Some q) = Some q'
    /\ same_fixed_fields q q' /\ actions q' = actions q ++ map comment_act B.
Proof.
  revert q. induction B as [|e B IH]; intros q; simpl.
  - exists q. rewrite app_nil_r. split; [reflexivity|split; [apply same_fixed_fields_refl|reflexivity]].
  - destruct (IH (pr_append_action (pr_comment_action (fst e) (snd e)) q)) as (q' & H & F' & Ha').
    exists q'. split; [exact H|split].
    + refine (same_fixed_fields_trans _ _ _ _ F'). repeat split.
    + rewrite Ha'. simpl. rewrite <- app_assoc. reflexivity.
Qed.

(** The shape of a [PullRequest] aggregate after both loops: its actions
    are those of its [PullRequestEvent]s (sorted) followed by those of its
    comment events (sorted); its fixed fields come from the first
    [PullRequestEvent], or, when there is none, from the first comment. *)
Lemma aggregate_pr_shape (events : list Event) (rn key : string) :
  let A := List.filter (pr_event_targets rn key) (pr_pass events) in
  let B := List.filter (comment_pr_targets rn key) (comment_pass events) in
  (A = [] -> B = [] -> lookup_pr (aggregate events) rn key = None) /\
  (A <> [] \/ B <> [] -> is_Some (lookup_pr (aggregate events) rn key)) /\
  (forall q, lookup_pr (aggregate events) rn key = Some q ->
     actions q = map pr_act A ++ map comment_act B /\
     (forall e A', A = e :: A' -> same_fixed_fields (pr_from_pr_event (snd e)) q) /\
     (A = [] -> forall e B', B = e :: B' -> same_fixed_fields (pr_from_comment (snd e)) q)).
Proof.
  intros A B. rewrite aggregate_lookup_pr. fold A B.
  destruct A as [|eA A'].
  - simpl. destruct B as [|eB B'].
    + simpl. split; [reflexivity|split; [intros [H|H]; congruence|discriminate]].
    + cbn [fold_left].
      change (comment_view_step None eB) with
        (Some (pr_append_action (pr_comment_action (fst eB) (snd eB)) (pr_from_comment (snd eB)))).
      destruct (comment_view_fold_Some B'
                  (pr_append_action (pr_comment_action (fst eB) (snd eB)) (pr_from_comment (snd eB))))
        as (q & Hq & F & Ha).
      rewrite Hq. split; [discriminate|split; [intros _; eexists; reflexivity|]].
      intros q0 [= <-]. split; [exact Ha|split; [discriminate|]].
      intros _ e B0 [= <- <-]. refine (same_fixed_fields_trans _ _ _ _ F). repeat split.
  - cbn [fold_left].
    change (pr_view_step None eA) with
      (Some (pr_event_update (fst eA) (snd eA) (pr_from_pr_event (snd eA)))).
    destruct (pr_event_update_shape (fst eA) (snd eA) (pr_from_pr_event (snd eA))) as [F0 Ha0].
    destruct (pr_view_fold_Some A' (pr_event_update (fst eA) (snd eA) (pr_from_pr_event (snd eA))))
      as (q1 & Hq1 & F1 & Ha1).
    rewrite Hq1.
    destruct (comment_view_fold_Some B q1) as (q & Hq & F & Ha).
    rewrite Hq. split; [discriminate|split; [intros _; eexists; reflexivity|]].
    intros q0 [= <-]. split; [|split].
    + rewrite Ha, Ha1, Ha0. reflexivity.
    + intros e A0 [= <- <-].
      exact (same_fixed_fields_trans _ _ _ (same_fixed_fields_trans _ _ _ F0 F1) F).
    + discriminate.
Qed.

End RunFacts.

(* ===================================================================== *)
(** ** The stable sort and the order of events *)
(* ===================================================================== *)

Module SortFacts.
Import Aggregation Spec.

Lemma insert_by_map {A B} (f : A -> B) (key : B -> Z) (x : A) (l : list A) :
  map f (insert_by (fun a => key (f a)) x l) = insert_by key (f x) (map f l).
Proof.
  induction l as [|y l IH]; simpl; [reflexivity|].
  destruct (Z.ltb (key (f x)) (key (f y))); simpl; [reflexivity|]. rewrite IH. reflexivity.
Qed.

Lemma sorted_by_map {A B} (f : A -> B) (key : B -> Z) (l : list A) :
  map f (sorted_by (fun a => key (f a)) l) = sorted_by key (map f l).
Proof.
  unfold sorted_by.
  assert (H : forall acc, map f (fold_left (fun acc x => insert_by (fun a => key (f a)) x acc) l acc)
                          = fold_left (fun acc x => insert_by key x acc) (map f l) (map f acc)).
  { induction l as [|x l IH]; intros acc; simpl; [reflexivity|].
    rewrite IH, insert_by_map. reflexivity. }
  apply (H []).
Qed.

Lemma insert_by_perm {A} (key : A -> Z) (x : A) (l : list A) : insert_by key x l ≡ₚ x :: l.
Proof.
  induction l as [|y l IH]; simpl; [reflexivity|].
  destruct (Z.ltb (key x) (key y)); [reflexivity|].
  rewrite IH. apply Permutation_swap.
Qed.

Lemma sorted_by_perm {A} (key : A -> Z) (l : list A) : sorted_by key l ≡ₚ l.
Proof.
  unfold sorted_by.
  assert (H : forall acc, fold_left (fun acc x => insert_by key x acc) l acc ≡ₚ l ++ acc).
  { induction l as [|x l IH]; intros acc; simpl; [reflexivity|].
    rewrite IH, insert_by_perm. symmetry. apply Permutation_middle. }
  rewrite H, app_nil_r. reflexivity.
Qed.

Section Sort.
Context {A : Type}.

Lemma tagged_lt_trans (key : A -> Z) : Transitive (tagged_lt key).
Proof. intros a b c; unfold tagged_lt; lia. Qed.

Lemma tagged_lt_asym (key : A -> Z) a b : tagged_lt key a b -> tagged_lt key b a -> False.
Proof. unfold tagged_lt; lia. Qed.

Lemma insert_by_HdRel (key : A -> Z) (y x : nat * A) (l : list (nat * A)) :
  HdRel (tagged_lt key) y l -> tagged_lt key y x ->
  HdRel (tagged_lt key) y (insert_by (fun a => key (snd a)) x l).
Proof.
  intros Hd Hyx. destruct l as [|z l]; simpl; [constructor; exact Hyx|].
  destruct (Z.ltb _ _); constructor; [exact Hyx|]. inversion Hd; assumption.
Qed.

Lemma insert_by_sorted (key : A -> Z) (x : nat * A) (l : list (nat * A)) :
  Sorted (tagged_lt key) l -> (forall y, y ∈ l -> (fst y < fst x)%nat) ->
  Sorted (tagged_lt key) (insert_by (fun a => key (snd a)) x l).
Proof.
  induction l as [|y l IH]; intros Hs Hlt; simpl.
  - repeat constructor.
  - destruct (Z.ltb (key (snd x)) (key (snd y))) eqn:E.
    + apply Z.ltb_lt in E. constructor; [exact Hs|]. constructor. left. exact E.
    + apply Z.ltb_ge in E. inversion Hs as [|? ? Hs' Hd]; subst. constructor.
      * apply IH; [exact Hs'|]. intros z Hz. apply Hlt. by right.
      * apply insert_by_HdRel; [exact Hd|].
        specialize (Hlt y (list_elem_of_here _ _)). unfold tagged_lt. lia.
Qed.

Lemma sorted_tagged (key : A -> Z) (l : list A) (k : nat) (acc : list (nat * A)) :
  Sorted (tagged_lt key) acc -> (forall y, y ∈ acc -> (fst y < k)%nat) ->
  Sorted (tagged_lt key)
    (fold_left (fun acc x => insert_by (fun a => key (snd a)) x acc)
       (combine (seq k (length l)) l) acc).
Proof.
  revert k acc. induction l as [|x l IH]; intros k acc Hs Hlt; simpl; [exact Hs|].
  apply IH.
  - apply insert_by_sorted; [exact Hs|exact Hlt].
  - intros y Hy. cbv beta in Hy. rewrite (insert_by_perm _ _ _) in Hy.
    apply elem_of_cons in Hy as [->|Hy]; simpl; [lia|]. specialize (Hlt y Hy). lia.
Qed.

Lemma combine_seq_snd (l : list A) (k : nat) : map snd (combine (seq k (length l)) l) = l.
Proof. revert k. induction l as [|x l IH]; intros k; simpl; [reflexivity|]. by rewrite IH. Qed.

Lemma combine_seq_lookup (l : list A) (k i : nat) (x : A) :
  l !! i = Some x -> combine (seq k (length l)) l !! i = Some (k + i, x)%nat.
Proof.
  revert k i. induction l as [|y l IH]; intros k i H; [discriminate|].
  destruct i as [|i]; simpl in *.
  - injection H as ->. by rewrite Nat.add_0_r.
  - rewrite (IH (S k) i H). f_equal. f_equal. lia.
Qed.

Lemma strongly_sorted_before (R : nat * A -> nat * A -> Prop) (l : list (nat * A)) x y :
  StronglySorted R l -> (R y x -> False) -> x ∈ l -> y ∈ l -> x <> y -> before x y l.
Proof.
  intros Hs Hasym Hx Hy Hne. induction Hs as [|z l Hs IH Hall].
  - by apply elem_of_nil in Hx.
  - apply elem_of_cons in Hx as [->|Hx].
    + apply elem_of_cons in Hy as [->|Hy]; [congruence|].
      apply list_elem_of_split in Hy as (l2 & l3 & ->).
      exists [], l2, l3. reflexivity.
    + apply elem_of_cons in Hy as [->|Hy].
      * exfalso. apply Hasym. rewrite Forall_forall in Hall. apply Hall.
        exact Hx.
      * destruct (IH Hx Hy) as (l1 & l2 & l3 & ->). exists (z :: l1), l2, l3. reflexivity.
Qed.

(** The key lemma: the sort puts [x] before [y] when [x]'s key is smaller,
    or equal with [x] first in the input. *)
Lemma sorted_by_before (key : A -> Z) (l : list A) (i j : nat) (x y : A) :
  l !! i = Some x -> l !! j = Some y -> i <> j ->
  ((key x < key y)%Z \/ (key x = key y /\ (i < j)%nat)) ->
  before x y (sorted_by key l).
Proof.
  intros Hi Hj Hne Hord.
  set (tl := combine (seq 0 (length l)) l).
  assert (Hmap : sorted_by key l = map snd (sorted_by (fun a => key (snd a)) tl)).
  { rewrite (sorted_by_map snd key tl). unfold tl. by rewrite combine_seq_snd. }
  assert (Hss : StronglySorted (tagged_lt key) (sorted_by (fun a => key (snd a)) tl)).
  { apply Sorted_StronglySorted; [apply tagged_lt_trans|].
    apply sorted_tagged; [constructor|]. intros y0 Hy0. by apply elem_of_nil in Hy0. }
  assert (Hxi : (i, x) ∈ sorted_by (fun a => key (snd a)) tl).
  { rewrite sorted_by_perm. apply list_elem_of_lookup_2 with i.
    apply (combine_seq_lookup l 0 i x Hi). }
  assert (Hyj : (j, y) ∈ sorted_by (fun a => key (snd a)) tl).
  { rewrite sorted_by_perm. apply list_elem_of_lookup_2 with j.
    apply (combine_seq_lookup l 0 j y Hj). }
  destruct (strongly_sorted_before _ _ (i, x) (j, y) Hss) as (l1 & l2 & l3 & E).
  - intros H. apply (tagged_lt_asym key (i, x) (j, y)); [|exact H].
    unfold tagged_lt; simpl. exact Hord.
  - exact Hxi.
  - exact Hyj.
  - congruence.
  - rewrite Hmap, E. exists (map snd l1), (map snd l2), (map snd l3).
    rewrite map_app. simpl. rewrite map_app. reflexivity.
Qed.

End Sort.

Lemma before_map {A B} (f : A -> B) x y l : before x y l -> before (f x) (f y) (map f l).
Proof.
  intros (l1 & l2 & l3 & ->). exists (map f l1), (map f l2), (map f l3).
  rewrite map_app. simpl. rewrite map_app. reflexivity.
Qed.

Lemma before_filter {A} (P : A -> bool) x y l :
  before x y l -> P x = true -> P y = true -> before x y (List.filter P l).
Proof.
  intros (l1 & l2 & l3 & ->) Hx Hy. exists (List.filter P l1), (List.filter P l2), (List.filter P l3).
  rewrite List.filter_app. simpl. rewrite Hx, List.filter_app. simpl. rewrite Hy. reflexivity.
Qed.

Lemma before_app_r {A} x y (l m : list A) : before x y l -> before x y (l ++ m).
Proof.
  intros (l1 & l2 & l3 & ->). exists l1, l2, (l3 ++ m).
  rewrite <- app_assoc. simpl. rewrite <- app_assoc. reflexivity.
Qed.

Lemma before_omap {A B} (f : A -> option B) x y x' y' l :
  before x y l -> f x = Some x' -> f y = Some y' -> before x' y' (omap f l).
Proof.
  intros (l1 & l2 & l3 & ->) Hx Hy. exists (omap f l1), (omap f l2), (omap f l3).
  rewrite omap_app. simpl. rewrite Hx, omap_app. simpl. rewrite Hy. reflexivity.
Qed.

Lemma before_positions {A} x y (l : list A) :
  before x y l -> exists i j, (i < j)%nat /\ l !! i = Some x /\ l !! j = Some y.
Proof.
  intros (l1 & l2 & l3 & ->). exists (length l1), (length l1 + S (length l2))%nat.
  split; [lia|split].
  - by apply list_lookup_middle.
  - rewrite app_comm_cons, app_assoc. apply list_lookup_middle.
    rewrite length_app. simpl. lia.
Qed.

Lemma positions_before {A} (l : list A) i j x y :
  l !! i = Some x -> l !! j = Some y -> (i < j)%nat -> before x y l.
Proof.
  revert i j. induction l as [|z l IH]; intros i j Hi Hj Hij; [discriminate|].
  destruct i as [|i], j as [|j]; simpl in *; try lia.
  - injection Hi as ->. apply list_elem_of_lookup_2 in Hj.
    apply list_elem_of_split in Hj as (l2 & l3 & ->). exists [], l2, l3. reflexivity.
  - destruct (IH i j Hi Hj ltac:(lia)) as (l1 & l2 & l3 & ->). exists (z :: l1), l2, l3.
    reflexivity.
Qed.

Lemma omap_positions {A B} (f : A -> option B) (l : list A) i j x y x' y' :
  l !! i = Some x -> l !! j = Some y -> (i < j)%nat -> f x = Some x' -> f y = Some y' ->
  exists i' j', (i' < j')%nat /\ omap f l !! i' = Some x' /\ omap f l !! j' = Some y'.
Proof.
  intros Hi Hj Hij Hx Hy. apply before_positions.
  apply (before_omap f x y); [|exact Hx|exact Hy]. exact (positions_before l i j x y Hi Hj Hij).
Qed.

End SortFacts.

(* ===================================================================== *)
(** ** The claims *)
(* ===================================================================== *)

Module Claims.
Import Aggregation Spec Samples DecoderFacts StoreFacts StepFacts RunFacts SortFacts.

(** C1: [load_events] does not skip a record whose ["type"] is outside the
    union: once the strict validation of the batch has failed, the fallback
    loop reaches the [else] branch of its [if] chain, where
    [ValidationError(...)] cannot be built (pydantic's [ValidationError]
    has no constructor) and raises [TypeError], which the
    [except ValidationError] clause does not catch. So an envelope-valid
    record of an unknown type makes [load_events] raise, whatever the other
    records are. *)
Theorem load_events_unknown_type_raises {Raw : Type} (type_field : Raw -> option string)
  (envelope_valid : Raw -> bool) (payload_valid : Decoder.Kind -> Raw -> bool)
  (rs1 rs2 : list Raw) (r : Raw) (t : string) :
  envelope_valid r = true -> type_field r = Some t -> Decoder.union_tag t = None ->
  Decoder.load_events type_field envelope_valid payload_valid (rs1 ++ r :: rs2)
  = Raise (TypeError "No constructor defined").
Proof. apply unknown_type_raises. Qed.

Lemma load_events_unknown_type_raises_witness :
  Decoder.load_events s_type s_envelope_ok s_payload_valid [good_push; unknown_type; good_watch]
  = Raise (TypeError "No constructor defined").
Proof.
  apply (load_events_unknown_type_raises s_type s_envelope_ok s_payload_valid
           [good_push] [good_watch] unknown_type "DiscussionEvent"); reflexivity.
Defined.

(** C1, the failing input: a batch of one envelope-valid record of type
    ["DiscussionEvent"] makes [load_events] raise instead of returning []. *)
Lemma load_events_single_unknown_type :
  Decoder.load_events s_type s_envelope_ok s_payload_valid [unknown_type]
  = Raise (TypeError "No constructor defined").
Proof. vm_compute. reflexivity. Qed.

(** C2: on a batch every record of which validates against the union
    [Event], the per-record fallback loop returns exactly the list the
    strict whole-batch validation returns. *)
Theorem fallback_agrees_with_strict {Raw : Type} (type_field : Raw -> option string)
  (envelope_valid : Raw -> bool) (payload_valid : Decoder.Kind -> Raw -> bool)
  (rs : list Raw) (es : list (Decoder.Event Raw)) :
  Decoder.Events_validate type_field envelope_valid payload_valid rs = Some es ->
  Decoder.fallback type_field envelope_valid payload_valid rs = Ret es.
Proof. apply fallback_of_valid. Qed.

Lemma fallback_agrees_with_strict_witness :
  Decoder.fallback s_type s_envelope_ok s_payload_valid [good_push; good_watch]
  = Ret [Decoder.mkEvent Decoder.KPushEvent good_push;
         Decoder.mkEvent Decoder.KWatchEvent good_watch].
Proof. apply fallback_agrees_with_strict. reflexivity. Defined.

(** C3: one malformed record [r] injected between two valid batches. When
    [r] fails the [EventBase] fields, or names a type of the union, it is
    dropped and the other records come out in input order; when it is
    envelope-valid with a type outside the union, [load_events] raises
    [TypeError] and returns nothing. *)
Theorem load_events_one_malformed {Raw : Type} (type_field : Raw -> option string)
  (envelope_valid : Raw -> bool) (payload_valid : Decoder.Kind -> Raw -> bool)
  (rs1 rs2 : list Raw) (r : Raw) (es1 es2 : list (Decoder.Event Raw)) :
  Decoder.Events_validate type_field envelope_valid payload_valid rs1 = Some es1 ->
  Decoder.Events_validate type_field envelope_valid payload_valid rs2 = Some es2 ->
  Decoder.Event_validate type_field envelope_valid payload_valid r = None ->
  Decoder.load_events type_field envelope_valid payload_valid (rs1 ++ r :: rs2) =
  match Decoder.EventLight_validate type_field envelope_valid r with
  | Some t =>
      match Decoder.union_tag t with
      | Some _ => Ret (es1 ++ es2)
      | None => Raise (TypeError "No constructor defined")
      end
  | None => Ret (es1 ++ es2)
  end.
Proof.
  intros H1 H2 Hr.
  destruct (Decoder.EventLight_validate type_field envelope_valid r) as [t|] eqn:Hl.
  - destruct (Decoder.union_tag t) as [k|] eqn:Hk.
    + apply (one_malformed_known_dropped type_field envelope_valid payload_valid);
        [exact H1|exact H2|exact Hr|].
      intros t' Ht'. rewrite Hl in Ht'. injection Ht' as <-. rewrite Hk. discriminate.
    + unfold Decoder.EventLight_validate in Hl.
      destruct (envelope_valid r) eqn:He; [|discriminate].
      exact (unknown_type_raises type_field envelope_valid payload_valid rs1 rs2 r t He Hl Hk).
  - apply (one_malformed_known_dropped type_field envelope_valid payload_valid);
      [exact H1|exact H2|exact Hr|].
    intros t' Ht'. rewrite Hl in Ht'. discriminate.
Qed.

Lemma load_events_one_malformed_witness :
  Decoder.load_events s_type s_envelope_ok s_payload_valid [good_push; bad_payload; good_watch]
  = Ret [Decoder.mkEvent Decoder.KPushEvent good_push;
         Decoder.mkEvent Decoder.KWatchEvent good_watch].
Proof.
  exact (load_events_one_malformed s_type s_envelope_ok s_payload_valid
           [good_push] [good_watch] bad_payload
           [Decoder.mkEvent Decoder.KPushEvent good_push]
           [Decoder.mkEvent Decoder.KWatchEvent good_watch] eq_refl eq_refl eq_refl).
Defined.

(** C3, the failing input: two valid records and one envelope-valid record
    of type ["DiscussionEvent"]; [load_events] raises instead of returning
    the two valid events. *)
Lemma load_events_injected_unknown_type :
  Decoder.load_events s_type s_envelope_ok s_payload_valid [good_push; good_watch; unknown_type]
  = Raise (TypeError "No constructor defined").
Proof. vm_compute. reflexivity. Qed.

(** C4: in any state the loops reach, a [PullRequestEvent] appends its
    action to its [PullRequest] and, when its body is present and not
    empty, replaces [linked_issues_ids] with the numbers the pattern finds
    in the body; an empty or absent body leaves the set as it was. The
    pattern finds {42, 7} in "Fixes #42 and closes #7" and {9} in
    "resolves #9". *)
Theorem pr_event_linked_issues (steps : list Step) (b : EventBase)
  (p : PullRequestEventPayload) :
  let st := run steps empty_state in
  let rn := repo_name (ev_repo b) in
  let key := str (pr_number (pre_pull_request p)) in
  let old := default (pr_from_pr_event p) (lookup_pr st rn key) in
  (exists q, lookup_pr (pull_request_step st b p) rn key = Some q /\
     actions q = actions old ++ [pr_event_action b p] /\
     linked_issues_ids q =
       match pr_body (pre_pull_request p) with
       | Some body =>
           if String.eqb body "" then linked_issues_ids old else LinkPattern.linked_ids body
       | None => linked_issues_ids old
       end) /\
  LinkPattern.linked_ids "Fixes #42 and closes #7" = {[42%Z; 7%Z]} /\
  LinkPattern.linked_ids "resolves #9" = {[9%Z]}.
Proof.
  intros st rn key old. split; [|split; vm_compute; reflexivity].
  rewrite (pull_request_step_lookup_pr st b p rn key (wf_run steps empty_state wf_empty)).
  assert (Ht : pr_event_targets rn key (b, p) = true).
  { unfold pr_event_targets, rn, key. simpl. rewrite !String.eqb_refl. reflexivity. }
  rewrite Ht. eexists. split; [reflexivity|].
  unfold pr_event_update. simpl.
  destruct (pr_body (pre_pull_request p)) as [body|];
    [destruct (String.eqb body "")|]; split; reflexivity.
Qed.

(** C5: one [PullRequest] per repository and number, whichever loop meets
    it first; its title, creator and branch come from the first
    [PullRequestEvent] of the first loop's order (timestamp, then input
    order), or, when there is none, from the first comment on it, with no
    branch. Later events never overwrite them. *)
Theorem pr_fields_first_write_wins (events : list Event) (rn key : string) (q : PullRequest) :
  lookup_pr (aggregate events) rn key = Some q ->
  (forall e A', List.filter (pr_event_targets rn key) (pr_pass events) = e :: A' ->
     title q = pr_title (pre_pull_request (snd e)) /\
     creator q = login (pr_user (pre_pull_request (snd e))) /\
     branch q = branch (pr_from_pr_event (snd e))) /\
  (List.filter (pr_event_targets rn key) (pr_pass events) = [] ->
   forall e B', List.filter (comment_pr_targets rn key) (comment_pass events) = e :: B' ->
     title q = Models.issue_title (ice_issue (snd e)) /\
     creator q = login (issue_user (ice_issue (snd e))) /\
     branch q = None).
Proof.
  intros Hq. destruct (aggregate_pr_shape events rn key) as (_ & _ & H).
  destruct (H q Hq) as (_ & HA & HB). split.
  - intros e A' HeA. destruct (HA e A' HeA) as (_ & Ht & Hc & _ & Hb).
    repeat split; assumption.
  - intros HA0 e B' HeB. destruct (HB HA0 e B' HeB) as (_ & Ht & Hc & _ & Hb).
    repeat split; assumption.
Qed.

Lemma pr_fields_first_write_wins_witness :
  exists q, lookup_pr (aggregate comment_then_pr) "o/r" "5" = Some q /\ title q = "Old".
Proof.
  remember (lookup_pr (aggregate comment_then_pr) "o/r" "5") as o eqn:Ho.
  destruct o as [q|]; [|vm_compute in Ho; discriminate].
  exists q. split; [reflexivity|].
  destruct (pr_fields_first_write_wins comment_then_pr "o/r" "5" q (eq_sym Ho)) as [HA _].
  destruct (HA (base "o/r" 1, pr_payload 5 "Old" None) []) as [Ht _];
    [vm_compute; reflexivity|].
  exact Ht.
Defined.

(** C5, the counterexample: the comment is the later write (timestamp 2,
    title "New") yet the pull request keeps the title "Old" of the earlier
    [PullRequestEvent]. *)
Lemma pr_title_is_not_last_write :
  (ev_created_at (base "o/r" 1) < ev_created_at (base "o/r" 2))%Z /\
  option_map title (lookup_pr (aggregate comment_then_pr) "o/r" "5") = Some "Old".
Proof. split; [simpl; lia|vm_compute; reflexivity]. Qed.

(** C6: two [PullRequestEvent]s of one pull request: when the first has the
    smaller timestamp, or the same timestamp and the smaller input index,
    its action comes first in the pull request's actions. *)
Theorem pr_actions_in_timestamp_order (events : list Event) (i j : nat)
  (b1 b2 : EventBase) (p1 p2 : PullRequestEventPayload) :
  events !! i = Some (PullRequestEvent b1 p1) ->
  events !! j = Some (PullRequestEvent b2 p2) -> i <> j ->
  repo_name (ev_repo b2) = repo_name (ev_repo b1) ->
  pr_number (pre_pull_request p2) = pr_number (pre_pull_request p1) ->
  (ev_created_at b1 < ev_created_at b2)%Z \/
  (ev_created_at b1 = ev_created_at b2 /\ (i < j)%nat) ->
  exists q a c,
    lookup_pr (aggregate events) (repo_name (ev_repo b1)) (str (pr_number (pre_pull_request p1)))
      = Some q /\
    (a < c)%nat /\
    actions q !! a = Some (pr_event_action b1 p1) /\
    actions q !! c = Some (pr_event_action b2 p2).
Proof.
  intros Hi Hj Hne Hrn Hn Hord.
  set (rn := repo_name (ev_repo b1)). set (key := str (pr_number (pre_pull_request p1))).
  assert (Hsort : before (b1, p1) (b2, p2) (pr_pass events)).
  { unfold pr_pass.
    destruct (Nat.lt_gt_cases i j) as [[Hij|Hji] _]; [exact Hne| |].
    - destruct (omap_positions as_pull_request_event events i j _ _ (b1, p1) (b2, p2)
                  Hi Hj Hij eq_refl eq_refl) as (i' & j' & Hij' & Hi' & Hj').
      apply (sorted_by_before created_at _ i' j'); [exact Hi'|exact Hj'|lia|].
      unfold created_at; simpl. lia.
    - destruct (omap_positions as_pull_request_event events j i _ _ (b2, p2) (b1, p1)
                  Hj Hi Hji eq_refl eq_refl) as (j' & i' & Hji' & Hj' & Hi').
      apply (sorted_by_before created_at _ i' j'); [exact Hi'|exact Hj'|lia|].
      unfold created_at; simpl. lia. }
  assert (Ht1 : pr_event_targets rn key (b1, p1) = true).
  { unfold pr_event_targets, rn, key. simpl. rewrite !String.eqb_refl. reflexivity. }
  assert (Ht2 : pr_event_targets rn key (b2, p2) = true).
  { unfold pr_event_targets, rn, key. simpl. rewrite Hrn, Hn, !String.eqb_refl. reflexivity. }
  pose proof (before_filter _ _ _ _ Hsort Ht1 Ht2) as Hf.
  destruct (aggregate_pr_shape events rn key) as (_ & Hsome & Hshape).
  destruct Hsome as [q Hq].
  { left. destruct Hf as (l1 & l2 & l3 & E). rewrite E. destruct l1; discriminate. }
  destruct (Hshape q Hq) as (Hact & _ & _).
  pose proof (before_app_r _ _ _
                (map comment_act (List.filter (comment_pr_targets rn key) (comment_pass events)))
                (before_map pr_act _ _ _ Hf)) as Hb.
  rewrite <- Hact in Hb.
  destruct (before_positions _ _ _ Hb) as (a & c & Hac & Ha & Hc).
  exists q, a, c. split; [exact Hq|]. split; [exact Hac|]. split; [exact Ha|exact Hc].
Qed.

Lemma pr_actions_in_timestamp_order_witness :
  exists q a c,
    lookup_pr (aggregate two_pr_events) "o/r" (str 5) = Some q /\ (a < c)%nat /\
    actions q !! a = Some (pr_event_action (base "o/r" 1) (pr_payload 5 "A" None)) /\
    actions q !! c = Some (pr_event_action (base "o/r" 2) (pr_payload 5 "B" None)).
Proof.
  apply (pr_actions_in_timestamp_order two_pr_events 1 0 (base "o/r" 1) (base "o/r" 2)
           (pr_payload 5 "A" None) (pr_payload 5 "B" None)); try reflexivity.
  - lia.
  - left. simpl. lia.
Defined.

(** C7: in any state the loops reach, an [IssueCommentEvent] whose issue
    carries a [pull_request] link appends "PR comment " plus its action to
    the [PullRequest] under its repository and number (creating it if
    needed) and changes no [Issue]; one without the link appends
    "Issue comment " plus its action to the [Issue] under its repository
    and number and changes no [PullRequest]. *)
Theorem comment_routed_by_pull_request_link (steps : list Step) (b : EventBase)
  (p : IssueCommentEventPayload) :
  let st := run steps empty_state in
  let rn := repo_name (ev_repo b) in
  let key := str (Models.issue_number (ice_issue p)) in
  let st' := issue_comment_step st b p in
  (issue_pull_request (ice_issue p) <> None ->
     lookup_pr st' rn key =
       Some (pr_append_action (pr_comment_action b p)
               (default (pr_from_comment p) (lookup_pr st rn key))) /\
     action (pr_comment_action b p) = "PR comment " +:+ ice_action p /\
     forall rn' key', lookup_issue st' rn' key' = lookup_issue st rn' key') /\
  (issue_pull_request (ice_issue p) = None ->
     lookup_issue st' rn key =
       Some (issue_append_action (issue_comment_action b p)
               (default (issue_from_comment p) (lookup_issue st rn key))) /\
     action (issue_comment_action b p) = "Issue comment " +:+ ice_action p /\
     forall rn' key', lookup_pr st' rn' key' = lookup_pr st rn' key').
Proof.
  intros st rn key st'.
  pose proof (wf_run steps empty_state wf_empty) as Hwf.
  assert (Hk : String.eqb rn rn && String.eqb key key = true).
  { rewrite !String.eqb_refl. reflexivity. }
  split; intros Hlink.
  - split; [|split; [reflexivity|]].
    + unfold st'. rewrite (issue_comment_step_lookup_pr st b p rn key Hwf).
      unfold comment_pr_targets. simpl. fold rn key.
      destruct (issue_pull_request (ice_issue p)); [|congruence].
      rewrite !String.eqb_refl. reflexivity.
    + intros rn' key'. unfold st'. rewrite (issue_comment_step_lookup_issue st b p rn' key' Hwf).
      unfold comment_issue_targets. simpl.
      destruct (issue_pull_request (ice_issue p)); [|congruence].
      rewrite andb_false_r. reflexivity.
  - split; [|split; [reflexivity|]].
    + unfold st'. rewrite (issue_comment_step_lookup_issue st b p rn key Hwf).
      unfold comment_issue_targets. simpl. fold rn key. rewrite Hlink.
      rewrite !String.eqb_refl. reflexivity.
    + intros rn' key'. unfold st'. rewrite (issue_comment_step_lookup_pr st b p rn' key' Hwf).
      unfold comment_pr_targets. simpl. rewrite Hlink, andb_false_r. reflexivity.
Qed.

Lemma comment_routed_by_pull_request_link_witness :
  lookup_pr (issue_comment_step (run [] empty_state) (base "o/r" 1) (comment_payload 5 "T" true))
    "o/r" "5"
  = Some (pr_append_action (pr_comment_action (base "o/r" 1) (comment_payload 5 "T" true))
            (pr_from_comment (comment_payload 5 "T" true))).
Proof.
  destruct (comment_routed_by_pull_request_link [] (base "o/r" 1) (comment_payload 5 "T" true))
    as [H _].
  exact (proj1 (H ltac:(discriminate))).
Defined.

(** C8: after the loops, no two dict entries of different repositories
    point to the same aggregate object, whatever their numbers. *)
Theorem aggregates_not_shared_across_repositories (events : list Event) (c1 c2 : Coll)
  (rn1 rn2 k1 k2 : string) (l1 l2 : loc) :
  rn1 <> rn2 ->
  points_to (aggregate events) c1 rn1 k1 l1 -> points_to (aggregate events) c2 rn2 k2 l2 ->
  l1 <> l2.
Proof.
  intros Hne H1 H2 <-.
  destruct (wf_aggregate events) as (_ & _ & Hinj).
  destruct (Hinj c1 rn1 k1 c2 rn2 k2 l1 H1 H2) as (_ & Hrn & _). exact (Hne Hrn).
Qed.

Lemma aggregates_not_shared_across_repositories_witness :
  points_to (aggregate two_repositories) CPR "a/x" "1" 0%nat /\
  points_to (aggregate two_repositories) CPR "b/y" "1" 1%nat /\ (0 <> 1)%nat.
Proof.
  assert (H1 : points_to (aggregate two_repositories) CPR "a/x" "1" 0%nat).
  { apply points_to_alt. vm_compute. reflexivity. }
  assert (H2 : points_to (aggregate two_repositories) CPR "b/y" "1" 1%nat).
  { apply points_to_alt. vm_compute. reflexivity. }
  split; [exact H1|split; [exact H2|]].
  exact (aggregates_not_shared_across_repositories two_repositories CPR CPR "a/x" "b/y" "1" "1"
           0%nat 1%nat ltac:(discriminate) H1 H2).
Defined.

(** C9: the actions of a [PullRequest] after the loops are those of its
    [PullRequestEvent]s, in the first loop's order, followed by those of
    the comments on it, in the second loop's order, whatever the
    timestamps. *)
Theorem pr_event_actions_before_comment_actions (events : list Event) (rn key : string)
  (q : PullRequest) :
  lookup_pr (aggregate events) rn key = Some q ->
  actions q = map pr_act (List.filter (pr_event_targets rn key) (pr_pass events))
              ++ map comment_act (List.filter (comment_pr_targets rn key) (comment_pass events)).
Proof.
  intros Hq. destruct (aggregate_pr_shape events rn key) as (_ & _ & H).
  exact (proj1 (H q Hq)).
Qed.

Lemma pr_event_actions_before_comment_actions_witness :
  exists q, lookup_pr (aggregate early_comment) "o/r" "5" = Some q /\
    map action (actions q) = ["PR opened"; "PR comment created"].
Proof.
  remember (lookup_pr (aggregate early_comment) "o/r" "5") as o eqn:Ho.
  destruct o as [q|]; [|vm_compute in Ho; discriminate].
  exists q. split; [reflexivity|].
  rewrite (pr_event_actions_before_comment_actions early_comment "o/r" "5" q (eq_sym Ho)).
  vm_compute. reflexivity.
Defined.

(** C10: an object that is a [PullRequest] at some point of the run is
    still one at the end, with the same number, title, creator,
    linked_issues and branch, and its earlier actions as a prefix of its
    actions; only [linked_issues_ids] may differ beyond that. *)
Theorem pr_fixed_fields_never_change (events : list Event) (s1 s2 : list Step) (l : loc)
  (q : PullRequest) :
  main_steps events = s1 ++ s2 ->
  heap (run s1 empty_state) !! l = Some (OPR q) ->
  exists q', heap (aggregate events) !! l = Some (OPR q') /\ pr_frame q q'.
Proof.
  intros Hs Hl. rewrite aggregate_run, Hs. unfold run at 1. rewrite fold_left_app.
  exact (run_pr_frame s2 (run s1 empty_state) l q (wf_run s1 empty_state wf_empty) Hl).
Qed.

Lemma pr_fixed_fields_never_change_witness :
  exists q q',
    heap (run [SIssueComment (base "o/r" 1) (comment_payload 5 "T" true)] empty_state) !! 0%nat
      = Some (OPR q) /\
    heap (aggregate [IssueCommentEvent (base "o/r" 1) (comment_payload 5 "T" true);
                     IssueCommentEvent (base "o/r" 2) (comment_payload 5 "T" true)]) !! 0%nat
      = Some (OPR q') /\
    pr_frame q q'.
Proof.
  remember (heap (run [SIssueComment (base "o/r" 1) (comment_payload 5 "T" true)] empty_state)
              !! 0%nat) as o eqn:Ho.
  destruct o as [[q|]|]; [|vm_compute in Ho; discriminate|vm_compute in Ho; discriminate].
  destruct (pr_fixed_fields_never_change
              [IssueCommentEvent (base "o/r" 1) (comment_payload 5 "T" true);
               IssueCommentEvent (base "o/r" 2) (comment_payload 5 "T" true)]
              [SIssueComment (base "o/r" 1) (comment_payload 5 "T" true)]
              [SIssueComment (base "o/r" 2) (comment_payload 5 "T" true)] 0%nat q
              ltac:(vm_compute; reflexivity) (eq_sym Ho)) as (q' & H1 & H2).
  exists q, q'. split; [reflexivity|split; [exact H1|exact H2]].
Defined.

End Claims.

(* ===================================================================== *)
(** ** More on the decoder *)
(* ===================================================================== *)

Module DecoderMore.
Import Decoder DecoderFacts.

Arguments ev_kind {Raw} e.
Arguments ev_raw {Raw} e.

Section WithSchemas.

Context {Raw : Type} (type_field : Raw -> option string)
  (envelope_valid : Raw -> bool) (payload_valid : Kind -> Raw -> bool).

Local Abbreviation Ev := (Event Raw).
Local Abbreviation validate_one := (Event_validate type_field envelope_valid payload_valid).
Local Abbreviation validate_all := (Events_validate type_field envelope_valid payload_valid).
Local Abbreviation light := (EventLight_validate type_field envelope_valid).
Local Abbreviation dispatch := (dispatch_type type_field envelope_valid payload_valid).
Local Abbreviation fb := (fallback type_field envelope_valid payload_valid).
Local Abbreviation load := (load_events type_field envelope_valid payload_valid).
Local Abbreviation mv := (model_validate type_field envelope_valid payload_valid).

(** A record of an unknown type: its [EventBase] fields validate and its
    ["type"] names no member of the union. *)
Local Abbreviation unknown_typed r :=
  (envelope_valid r = true /\ exists t, type_field r = Some t /\ union_tag t = None).

(** The instance a class validator builds is the record, as that class. *)
Lemma model_validate_inv (k : Kind) (r : Raw) (e : Ev) :
  mv k r = Some e ->
  e = mkEvent k r /\ envelope_valid r = true /\
  type_field r = Some (kind_literal k) /\ payload_valid k r = true.
Proof.
  unfold model_validate.
  destruct (envelope_valid r) eqn:He; [|discriminate].
  destruct (type_field r) as [t|] eqn:Ht; [|discriminate].
  destruct (String.eqb_spec t (kind_literal k)) as [->|]; [|discriminate].
  destruct (payload_valid k r) eqn:Hp; [|discriminate].
  intros [= <-]. tauto.
Qed.

Lemma validate_one_inv (r : Raw) (e : Ev) :
  validate_one r = Some e ->
  e = mkEvent (ev_kind e) r /\ envelope_valid r = true /\
  type_field r = Some (kind_literal (ev_kind e)) /\ payload_valid (ev_kind e) r = true.
Proof.
  intros H. destruct (Event_validate_inv type_field envelope_valid payload_valid r e H)
    as (t & k & _ & _ & Hm).
  destruct (model_validate_inv k r e Hm) as (-> & ?). simpl. tauto.
Qed.

Lemma validate_all_omap (rs : list Raw) (es : list Ev) :
  validate_all rs = Some es -> es = omap validate_one rs.
Proof.
  revert es. induction rs as [|r rs IH]; intros es; simpl; [intros [= <-]; reflexivity|].
  destruct (validate_one r) as [e|]; [|discriminate].
  destruct (validate_all rs) as [es'|]; [|discriminate].
  intros [= <-]. f_equal. apply IH. reflexivity.
Qed.

Lemma light_None_validate (r : Raw) : light r = None -> validate_one r = None.
Proof.
  unfold EventLight_validate, Event_validate, model_validate.
  destruct (envelope_valid r); simpl.
  - intros ->. reflexivity.
  - destruct (type_field r); [|reflexivity]. destruct (union_tag _); reflexivity.
Qed.

Lemma fallback_omap (rs : list Raw) :
  (forall r, r ∈ rs -> ~ unknown_typed r) -> fb rs = Ret (omap validate_one rs).
Proof.
  induction rs as [|r rs IH]; intros Hk; simpl; [reflexivity|].
  assert (IH' : fb rs = Ret (omap validate_one rs)).
  { apply IH. intros r' Hr'. apply Hk. by right. }
  destruct (light r) as [t|] eqn:Hl.
  - destruct (union_tag t) as [k|] eqn:Hu.
    + rewrite (dispatch_known type_field envelope_valid payload_valid r t k Hl Hu).
      destruct (validate_one r); rewrite IH'; reflexivity.
    + exfalso. apply (Hk r (list_elem_of_here _ _)).
      unfold EventLight_validate in Hl. destruct (envelope_valid r); [|discriminate].
      split; [reflexivity|]. exists t. tauto.
  - rewrite (light_None_validate r Hl), IH'. reflexivity.
Qed.

Lemma fallback_raise_unknown (rs : list Raw) (x : PyExn) :
  fb rs = Raise x -> exists r, r ∈ rs /\ unknown_typed r.
Proof.
  induction rs as [|r rs IH]; simpl; [discriminate|].
  destruct (light r) as [t|] eqn:Hl.
  - rewrite dispatch_type_union_tag.
    destruct (union_tag t) as [k|] eqn:Hu.
    + destruct (mv k r); [destruct (fb rs) eqn:E; [discriminate|]|];
        intros H; destruct (IH ltac:(congruence)) as (r' & Hr' & Hu');
        exists r'; split; [by right|exact Hu'|by right|exact Hu'].
    + intros _. exists r. split; [left|].
      unfold EventLight_validate in Hl. destruct (envelope_valid r); [|discriminate].
      split; [reflexivity|]. exists t. tauto.
  - intros H. destruct (IH H) as (r' & Hr' & Hu'). exists r'. split; [by right|exact Hu'].
Qed.

Lemma fallback_Ret_inv (rs : list Raw) (es : list Ev) :
  fb rs = Ret es -> forall e, e ∈ es -> ev_raw e ∈ rs /\ validate_one (ev_raw e) = Some e.
Proof.
  revert es. induction rs as [|r rs IH]; intros es; simpl.
  - intros [= <-] e He. by apply elem_of_nil in He.
  - destruct (light r) as [t|] eqn:Hl.
    + destruct (union_tag t) as [k|] eqn:Hu.
      * rewrite (dispatch_known type_field envelope_valid payload_valid r t k Hl Hu).
        destruct (validate_one r) as [e0|] eqn:H0.
        -- destruct (fb rs) as [es'|] eqn:E; [|discriminate]. intros [= <-] e He.
           apply elem_of_cons in He as [->|He].
           ++ destruct (validate_one_inv r e0 H0) as (Hr & _).
              rewrite Hr. simpl. rewrite <- Hr. split; [left|exact H0].
           ++ destruct (IH es' eq_refl e He) as [? ?]. split; [by right|assumption].
        -- intros H e He. destruct (IH es H e He) as [? ?]. split; [by right|assumption].
      * rewrite dispatch_type_union_tag, Hu. discriminate.
    + intros H e He. destruct (IH es H e He) as [? ?]. split; [by right|assumption].
Qed.

Lemma validate_all_inv (rs : list Raw) (es : list Ev) :
  validate_all rs = Some es -> forall e, e ∈ es -> ev_raw e ∈ rs /\ validate_one (ev_raw e) = Some e.
Proof.
  revert es. induction rs as [|r rs IH]; intros es; simpl.
  - intros [= <-] e He. by apply elem_of_nil in He.
  - destruct (validate_one r) as [e0|] eqn:H0; [|discriminate].
    destruct (validate_all rs) as [es'|]; [|discriminate].
    intros [= <-] e He. apply elem_of_cons in He as [->|He].
    + destruct (validate_one_inv r e0 H0) as (Hr & _).
      rewrite Hr. simpl. rewrite <- Hr. split; [left|exact H0].
    + destruct (IH es' eq_refl e He) as [? ?]. split; [by right|assumption].
Qed.

(** When no record is of an unknown type, [load_events] returns, in input
    order, exactly the records that validate on their own, each decoded as
    the class its type names; every other record is dropped. *)
Theorem load_events_keeps_valid_records (rs : list Raw) :
  (forall r, r ∈ rs -> ~ unknown_typed r) ->
  load_events type_field envelope_valid payload_valid rs
  = Ret (omap (Event_validate type_field envelope_valid payload_valid) rs).
Proof.
  intros Hk. unfold load_events.
  destruct (validate_all rs) as [es|] eqn:Hv.
  - rewrite (validate_all_omap rs es Hv). reflexivity.
  - apply fallback_omap, Hk.
Qed.


(** Every event [load_events] returns is one of the input records, built as
    the class its ["type"] names, with its [EventBase] fields and its
    payload valid for that class. *)
Theorem load_events_returns_input_records (rs : list Raw) (es : list Ev) :
  load rs = Ret es ->
  forall e, e ∈ es ->
    ev_raw e ∈ rs /\ envelope_valid (ev_raw e) = true /\
    type_field (ev_raw e) = Some (kind_literal (ev_kind e)) /\
    payload_valid (ev_kind e) (ev_raw e) = true.
Proof.
  unfold load_events. intros H e He.
  assert (Hin : ev_raw e ∈ rs /\ validate_one (ev_raw e) = Some e).
  { destruct (validate_all rs) as [es'|] eqn:Hv.
    - injection H as <-. exact (validate_all_inv rs es' Hv e He).
    - exact (fallback_Ret_inv rs es H e He). }
  destruct Hin as [Hin Hval]. split; [exact Hin|].
  destruct (validate_one_inv (ev_raw e) e Hval) as (_ & ?). exact H0.
Qed.

End WithSchemas.

Import Samples.

Lemma load_events_keeps_valid_records_witness :
  load_events s_type s_envelope_ok s_payload_valid [good_push; bad_payload; good_watch]
  = Ret [mkEvent KPushEvent good_push; mkEvent KWatchEvent good_watch].
Proof.
  assert (Hk : forall r, r ∈ [good_push; bad_payload; good_watch] ->
                ~ (s_envelope_ok r = true /\
                   exists t, s_type r = Some t /\ union_tag t = None)).
  { intros r Hr (_ & t & Ht & Hu).
    repeat (apply elem_of_cons in Hr as [->|Hr];
            [injection Ht as <-; vm_compute in Hu; discriminate|]).
    by apply elem_of_nil in Hr. }
  rewrite (load_events_keeps_valid_records s_type s_envelope_ok s_payload_valid _ Hk).
  reflexivity.
Defined.

Lemma load_events_returns_input_records_witness :
  good_watch ∈ [good_push; bad_payload; good_watch] /\ s_envelope_ok good_watch = true /\
  s_type good_watch = Some (kind_literal KWatchEvent) /\ s_payload_valid KWatchEvent good_watch = true.
Proof.
  exact (load_events_returns_input_records s_type s_envelope_ok s_payload_valid
           [good_push; bad_payload; good_watch]
           [mkEvent KPushEvent good_push; mkEvent KWatchEvent good_watch] eq_refl
           (mkEvent KWatchEvent good_watch) ltac:(right; left)).
Defined.

End DecoderMore.

(* ===================================================================== *)
(** ** More on the two loops of [main] *)
(* ===================================================================== *)

Module AggregateMore.
Import Aggregation Spec SpecMore Samples StoreFacts StepFacts RunFacts SortFacts.

(** The repositories dict after resolving an aggregate: [rn] (re)inserted,
    with its name and branches as [get_repo] found them. *)
Lemma touch_repositories (c : Coll) (st : State) (rn key : string) (fresh : Obj)
  (g : Obj -> Obj) :
  exists r', repositories (touch c st rn key fresh g) = <[rn := r']> (repositories st) /\
    name r' = name (get_repo (repositories st) rn) /\
    branches r' = branches (get_repo (repositories st) rn).
Proof.
  unfold touch, get_or_create.
  destruct (coll c (get_repo (repositories st) rn) !! key); simpl;
    (eexists; split; [reflexivity|]); [tauto|destruct c; simpl; tauto].
Qed.

Lemma step_repositories (st : State) (s : Step) :
  exists r', repositories (step st s) = <[step_repo s := r']> (repositories st) /\
    name r' = name (get_repo (repositories st) (step_repo s)) /\
    branches r' = branches (get_repo (repositories st) (step_repo s)).
Proof.
  destruct s as [b p|b p]; simpl.
  - rewrite pull_request_step_touch. apply touch_repositories.
  - rewrite issue_comment_step_touch.
    destruct (issue_pull_request (ice_issue p)); apply touch_repositories.
Qed.

Lemma repo_inv_step (st : State) (s : Step) : repo_inv st -> repo_inv (step st s).
Proof.
  intros Hinv rn r Hr. destruct (step_repositories st s) as (r' & E & Hn & Hb).
  rewrite E in Hr. rewrite lookup_insert in Hr. case_decide as Heq.
  - injection Hr as <-. subst rn. rewrite Hn, Hb. unfold get_repo.
    destruct (repositories st !! step_repo s) as [r0|] eqn:H0.
    + exact (Hinv _ _ H0).
    + split; reflexivity.
  - exact (Hinv _ _ Hr).
Qed.

Lemma repo_inv_run (steps : list Step) (st : State) : repo_inv st -> repo_inv (run steps st).
Proof.
  revert st. induction steps as [|s steps IH]; intros st H; simpl; [exact H|].
  apply IH, repo_inv_step, H.
Qed.

Lemma run_repositories_dom (steps : list Step) (st : State) (rn : string) :
  is_Some (repositories (run steps st) !! rn) <->
  is_Some (repositories st !! rn) \/ exists s, s ∈ steps /\ step_repo s = rn.
Proof.
  revert st. induction steps as [|s steps IH]; intros st; simpl.
  - split; [tauto|]. intros [H|(s & Hs & _)]; [exact H|by apply elem_of_nil in Hs].
  - change (fold_left step steps (step st s)) with (run steps (step st s)). rewrite IH.
    destruct (step_repositories st s) as (r' & E & _ & _). rewrite E, lookup_insert.
    case_decide as Heq.
    + split.
      * intros _. right. exists s. split; [left|exact Heq].
      * intros _. left. eexists. reflexivity.
    + split.
      * intros [H|(s' & Hs' & Hr)]; [tauto|]. right. exists s'. split; [by right|exact Hr].
      * intros [H|(s' & Hs' & Hr)]; [tauto|].
        apply elem_of_cons in Hs' as [->|Hs']; [contradiction|].
        right. exists s'. tauto.
Qed.

Lemma main_steps_repos (events : list Event) (rn : string) :
  (exists s, s ∈ main_steps events /\ step_repo s = rn) <->
  (exists e, e ∈ events /\ event_repo e = Some rn).
Proof.
  unfold main_steps. split.
  - intros (s & Hs & Hr). apply elem_of_app in Hs as [Hs|Hs];
      apply list_elem_of_fmap in Hs as ([b p] & -> & Hin);
      rewrite (sorted_by_perm _ _) in Hin; apply list_elem_of_omap in Hin as (e & He & Hf);
      exists e; split; try exact He; destruct e; simpl in Hf; try discriminate;
      injection Hf as <- <-; simpl; rewrite <- Hr; reflexivity.
  - intros (e & He & Hr). destruct e as [b p|b p|k b]; simpl in Hr; [| |discriminate];
      injection Hr as <-.
    + exists (SPullRequest b p). split; [|reflexivity]. apply elem_of_app. left.
      apply list_elem_of_fmap. exists (b, p). split; [reflexivity|].
      rewrite (sorted_by_perm _ _). apply list_elem_of_omap. exists (PullRequestEvent b p).
      split; [exact He|reflexivity].
    + exists (SIssueComment b p). split; [|reflexivity]. apply elem_of_app. right.
      apply list_elem_of_fmap. exists (b, p). split; [reflexivity|].
      rewrite (sorted_by_perm _ _). apply list_elem_of_omap. exists (IssueCommentEvent b p).
      split; [exact He|reflexivity].
Qed.

(** The [Issue] under one key after the second loop, as a fold. *)
Lemma pr_loop_lookup_issue (L : list (EventBase * PullRequestEventPayload)) (st : State)
  (rn key : string) :
  wf st -> lookup_issue (pr_loop L st) rn key = lookup_issue st rn key.
Proof.
  revert st. induction L as [|[b p] L IH]; intros st Hwf; simpl; [reflexivity|].
  rewrite IH by (apply wf_pull_request_step, Hwf).
  apply pull_request_step_lookup_issue, Hwf.
Qed.

Lemma comment_loop_lookup_issue (L : list (EventBase * IssueCommentEventPayload)) (st : State)
  (rn key : string) :
  wf st ->
  lookup_issue (comment_loop L st) rn key =
  fold_left issue_view_step (List.filter (comment_issue_targets rn key) L)
    (lookup_issue st rn key).
Proof.
  revert st. induction L as [|[b p] L IH]; intros st Hwf; simpl; [reflexivity|].
  rewrite IH by (apply wf_issue_comment_step, Hwf).
  rewrite issue_comment_step_lookup_issue by exact Hwf.
  destruct (comment_issue_targets rn key (b, p)); reflexivity.
Qed.

Lemma lookup_issue_empty (rn key : string) : lookup_issue empty_state rn key = None.
Proof.
  unfold lookup_issue, lookup_obj. simpl. rewrite lookup_empty. reflexivity.
Qed.

Lemma aggregate_lookup_issue (events : list Event) (rn key : string) :
  lookup_issue (aggregate events) rn key =
  fold_left issue_view_step (List.filter (comment_issue_targets rn key) (comment_pass events))
    None.
Proof.
  unfold aggregate.
  rewrite comment_loop_lookup_issue by (apply wf_pr_loop, wf_empty).
  rewrite pr_loop_lookup_issue by (apply wf_empty).
  rewrite lookup_issue_empty. reflexivity.
Qed.

Lemma issue_view_fold_Some (C : list (EventBase * IssueCommentEventPayload)) (i : Issue) :
  exists i', fold_left issue_view_step C (Some i) = Some i' /\
    issue_number i' = issue_number i /\ issue_title i' = issue_title i /\
    issue_creator i' = issue_creator i /\ issue_actions i' = issue_actions i ++ map issue_act C.
Proof.
  revert i. induction C as [|e C IH]; intros i; simpl.
  - exists i. rewrite app_nil_r. tauto.
  - destruct (IH (issue_append_action (issue_comment_action (fst e) (snd e)) i))
      as (i' & H & Hn & Ht & Hc & Ha).
    exists i'. split; [exact H|]. simpl in Hn, Ht, Hc, Ha. rewrite Hn, Ht, Hc, Ha.
    rewrite <- app_assoc. tauto.
Qed.

Lemma pr_view_fold_ids (A : list (EventBase * PullRequestEventPayload))
  (o : option PullRequest) (acc : option string) :
  (forall q, o = Some q -> linked_issues_ids q = ids_of acc) -> (o = None -> acc = None) ->
  (forall q, fold_left pr_view_step A o = Some q ->
     linked_issues_ids q = ids_of (fold_left body_step A acc)) /\
  (fold_left pr_view_step A o = None -> fold_left body_step A acc = None).
Proof.
  revert o acc. induction A as [|e A IH]; intros o acc Hs Hn; simpl; [split; assumption|].
  apply IH.
  - intros q [= <-]. unfold pr_event_update, body_step.
    assert (Hd : linked_issues_ids (default (pr_from_pr_event (snd e)) o) = ids_of acc).
    { destruct o as [q0|]; [exact (Hs q0 eq_refl)|rewrite (Hn eq_refl); reflexivity]. }
    destruct (pr_body (pre_pull_request (snd e))) as [body|];
      [destruct (String.eqb body "")|]; simpl; [exact Hd|reflexivity|exact Hd].
  - discriminate.
Qed.

Lemma comment_view_fold_ids (B : list (EventBase * IssueCommentEventPayload))
  (o : option PullRequest) (ids : gset Z) :
  (forall q, o = Some q -> linked_issues_ids q = ids) -> (o = None -> ids = ∅) ->
  forall q, fold_left comment_view_step B o = Some q -> linked_issues_ids q = ids.
Proof.
  revert o. induction B as [|e B IH]; intros o Hs Hn; simpl; [exact Hs|].
  apply IH; [|discriminate].
  intros q [= <-]. simpl.
  destruct o as [q0|]; [exact (Hs q0 eq_refl)|rewrite (Hn eq_refl); reflexivity].
Qed.

Lemma last_nonempty_body_fold (A : list (EventBase * PullRequestEventPayload)) :
  last_nonempty_body A = fold_left body_step A None.
Proof. reflexivity. Qed.

(** The repositories after both loops: there is one exactly for each
    repository named by a [PullRequestEvent] or an [IssueCommentEvent] (the
    other events create none), each stored under its own name, and its
    [branches] dict is empty. *)
Theorem repositories_of_aggregate (events : list Event) (rn : string) :
  (is_Some (repositories (aggregate events) !! rn) <->
   exists e, e ∈ events /\ event_repo e = Some rn) /\
  (forall r, repositories (aggregate events) !! rn = Some r -> name r = rn /\ branches r = ∅).
Proof.
  rewrite aggregate_run. split.
  - rewrite run_repositories_dom, <- main_steps_repos. simpl. rewrite lookup_empty.
    split; [intros [[? H]|H]; [discriminate|exact H]|intros H; right; exact H].
  - apply repo_inv_run. intros rn' r' H. simpl in H. rewrite lookup_empty in H. discriminate.
Qed.

(** The [Issue] under a key after both loops: absent when no comment without
    a [pull_request] link names it; otherwise built from the first such
    comment (timestamp, then input order), with one action per such
    comment in that order. *)
Theorem issue_aggregate_shape (events : list Event) (rn key : string) :
  let C := List.filter (comment_issue_targets rn key) (comment_pass events) in
  (C = [] -> lookup_issue (aggregate events) rn key = None) /\
  (forall e C', C = e :: C' ->
     exists i, lookup_issue (aggregate events) rn key = Some i /\
       issue_number i = Models.issue_number (ice_issue (snd e)) /\
       issue_title i = Models.issue_title (ice_issue (snd e)) /\
       issue_creator i = login (issue_user (ice_issue (snd e))) /\
       issue_actions i = map issue_act C).
Proof.
  intros C. rewrite aggregate_lookup_issue. fold C. split.
  - intros ->. reflexivity.
  - intros e C' HC. rewrite HC. cbn [fold_left].
    change (issue_view_step None e) with
      (Some (issue_append_action (issue_act e) (issue_from_comment (snd e)))).
    destruct (issue_view_fold_Some C' (issue_append_action (issue_act e) (issue_from_comment (snd e))))
      as (i & Hi & Hn & Ht & Hc & Ha).
    exists i. split; [exact Hi|]. rewrite Hn, Ht, Hc, Ha. simpl. tauto.
Qed.

(** The [linked_issues_ids] of a [PullRequest] after both loops are those
    of the last of its [PullRequestEvent]s (first loop's order) with a
    non-empty body, or none; comments never change them. *)
Theorem final_linked_issues_ids (events : list Event) (rn key : string) (q : PullRequest) :
  lookup_pr (aggregate events) rn key = Some q ->
  linked_issues_ids q =
  match last_nonempty_body (List.filter (pr_event_targets rn key) (pr_pass events)) with
  | Some body => LinkPattern.linked_ids body
  | None => ∅
  end.
Proof.
  rewrite aggregate_lookup_pr.
  set (A := List.filter (pr_event_targets rn key) (pr_pass events)).
  set (B := List.filter (comment_pr_targets rn key) (comment_pass events)).
  intros Hq. change (linked_issues_ids q = ids_of (last_nonempty_body A)).
  rewrite last_nonempty_body_fold.
  destruct (pr_view_fold_ids A None None ltac:(discriminate) (fun _ => eq_refl)) as [H1 H2].
  destruct (fold_left pr_view_step A None) as [q1|] eqn:E.
  - rewrite <- (H1 q1 eq_refl).
    exact (comment_view_fold_ids B (Some q1) (linked_issues_ids q1)
             (fun q0 H => f_equal linked_issues_ids (eq_sym (f_equal (default q1) H)))
             ltac:(discriminate) q Hq).
  - rewrite (H2 eq_refl).
    exact (comment_view_fold_ids B None ∅ ltac:(discriminate) (fun _ => eq_refl) q Hq).
Qed.

(** Fields [main] never fills: every [PullRequest] has no [linked_issues],
    and the [commits] of its branch, when it has one, are empty. *)
Theorem pr_unfilled_fields (events : list Event) (rn key : string) (q : PullRequest) :
  lookup_pr (aggregate events) rn key = Some q ->
  linked_issues q = [] /\ (forall br, branch q = Some br -> commits br = []).
Proof.
  intros Hq. destruct (aggregate_pr_shape events rn key) as (Hnone & _ & Hshape).
  destruct (Hshape q Hq) as (_ & HA & HB).
  destruct (List.filter (pr_event_targets rn key) (pr_pass events)) as [|e A'] eqn:EA.
  - destruct (List.filter (comment_pr_targets rn key) (comment_pass events)) as [|e B'] eqn:EB.
    + rewrite (Hnone eq_refl eq_refl) in Hq. discriminate.
    + destruct (HB eq_refl e B' eq_refl) as (_ & _ & _ & Hl & Hb).
      split; [exact Hl|]. intros br. rewrite Hb. discriminate.
  - destruct (HA e A' eq_refl) as (_ & _ & _ & Hl & Hb).
    split; [exact Hl|]. intros br. rewrite Hb. simpl. intros [= <-]. reflexivity.
Qed.

(** A pull request opened with body "Fixes #1", then edited to an empty
    body, then commented on. *)
Lemma final_linked_issues_ids_witness :
  exists q,
    lookup_pr (aggregate [PullRequestEvent (base "o/r" 1) (pr_payload 5 "T" (Some "Fixes #1"));
                          PullRequestEvent (base "o/r" 2) (pr_payload 5 "T" (Some ""));
                          IssueCommentEvent (base "o/r" 3) (comment_payload 5 "T" true)])
      "o/r" "5" = Some q /\
    linked_issues_ids q = {[1%Z]}.
Proof.
  remember (lookup_pr (aggregate [PullRequestEvent (base "o/r" 1) (pr_payload 5 "T" (Some "Fixes #1"));
                          PullRequestEvent (base "o/r" 2) (pr_payload 5 "T" (Some ""));
                          IssueCommentEvent (base "o/r" 3) (comment_payload 5 "T" true)])
      "o/r" "5") as o eqn:Ho.
  destruct o as [q|]; [|vm_compute in Ho; discriminate].
  exists q. split; [reflexivity|].
  rewrite (final_linked_issues_ids _ "o/r" "5" q (eq_sym Ho)). vm_compute. reflexivity.
Defined.

Lemma pr_unfilled_fields_witness :
  exists q, lookup_pr (aggregate two_repositories) "a/x" "1" = Some q /\
    linked_issues q = [] /\ (forall br, branch q = Some br -> commits br = []).
Proof.
  remember (lookup_pr (aggregate two_repositories) "a/x" "1") as o eqn:Ho.
  destruct o as [q|]; [|vm_compute in Ho; discriminate].
  exists q. split; [reflexivity|].
  exact (pr_unfilled_fields two_repositories "a/x" "1" q (eq_sym Ho)).
Defined.

End AggregateMore.

(* ===================================================================== *)
(** ** More on [ISSUE_PR_LINK_PATTERN] *)
(* ===================================================================== *)

Module LinkFacts.
Import LinkPattern SpecMore.

Lemma lower_nat c :
  nat_of_ascii (lower c) =
  if (65 <=? nat_of_ascii c)%nat && (nat_of_ascii c <=? 90)%nat
  then (nat_of_ascii c + 32)%nat else nat_of_ascii c.
Proof.
  unfold lower. destruct (_ && _) eqn:E; [|reflexivity].
  apply andb_true_iff in E as [_ E]. apply Nat.leb_le in E.
  apply nat_ascii_embedding. lia.
Qed.

Lemma lower_eq_inv c d :
  lower c = lower d ->
  nat_of_ascii c = nat_of_ascii d \/
  ((65 <= nat_of_ascii c <= 90)%nat /\ nat_of_ascii d = (nat_of_ascii c + 32)%nat) \/
  ((65 <= nat_of_ascii d <= 90)%nat /\ nat_of_ascii c = (nat_of_ascii d + 32)%nat).
Proof.
  intros H. apply (f_equal nat_of_ascii) in H. rewrite !lower_nat in H.
  destruct ((65 <=? nat_of_ascii c)%nat && _) eqn:E1;
  destruct ((65 <=? nat_of_ascii d)%nat && _) eqn:E2;
  repeat match goal with
  | E : (_ && _) = true |- _ =>
      apply andb_true_iff in E as [? ?]
  | E : (_ && _) = false |- _ =>
      apply andb_false_iff in E
  | E : (_ <=? _)%nat = true |- _ => apply Nat.leb_le in E
  | E : (_ <=? _)%nat = false |- _ => apply Nat.leb_gt in E
  end; lia.
Qed.

Lemma nat_of_ascii_inj c d : nat_of_ascii c = nat_of_ascii d -> c = d.
Proof.
  intros H. rewrite <- (ascii_nat_embedding c), <- (ascii_nat_embedding d).
  now rewrite H.
Qed.

Lemma is_space_letter n :
  (65 <= n <= 122)%nat ->
  ((n =? 32)%nat || ((9 <=? n)%nat && (n <=? 13)%nat)
   || ((28 <=? n)%nat && (n <=? 31)%nat)) = false.
Proof.
  intros Hn. apply orb_false_intro; [apply orb_false_intro|].
  - apply Nat.eqb_neq. lia.
  - apply andb_false_iff. right. apply Nat.leb_gt. lia.
  - apply andb_false_iff. right. apply Nat.leb_gt. lia.
Qed.

Lemma is_digit_letter n :
  (65 <= n <= 122)%nat -> ((48 <=? n)%nat && (n <=? 57)%nat) = false.
Proof.
  intros Hn. apply andb_false_iff. right. apply Nat.leb_gt. lia.
Qed.

(** Two characters with the same lowercase form are either equal or two
    letters; in both cases the classes [\s] and [\d] agree. *)
Lemma lower_eq_classes c d :
  lower c = lower d ->
  is_space c = is_space d /\ is_digit c = is_digit d /\
  (is_digit c = true -> c = d) /\ (c = "#"%char -> d = c).
Proof.
  intros H. destruct (lower_eq_inv c d H) as [E | [[Hc E] | [Hd E]]].
  - apply nat_of_ascii_inj in E. subst d. repeat split; auto.
  - unfold is_space, is_digit. rewrite E.
    rewrite !is_space_letter, !is_digit_letter by lia.
    repeat split; try discriminate.
    intros ->. assert (nat_of_ascii "#" = 35%nat) by reflexivity. lia.
  - unfold is_space, is_digit. rewrite E.
    rewrite !is_space_letter, !is_digit_letter by lia.
    repeat split; try discriminate.
    intros ->. assert (nat_of_ascii "#" = 35%nat) by reflexivity. lia.
Qed.


Lemma ci_cons c1 c2 s1 s2 :
  ci (c1 :: s1) (c2 :: s2) <-> lower c1 = lower c2 /\ ci s1 s2.
Proof.
  unfold ci. simpl. split.
  - intros H. injection H. auto.
  - intros [-> ->]. reflexivity.
Qed.

Lemma ci_nil_l s : ci [] s -> s = [].
Proof. unfold ci. destruct s; [reflexivity | discriminate]. Qed.

Lemma ci_nil_r s : ci s [] -> s = [].
Proof. unfold ci. destruct s; [reflexivity | discriminate]. Qed.

Lemma ci_length s1 s2 : ci s1 s2 -> length s1 = length s2.
Proof.
  unfold ci. intros H. rewrite <- (length_map lower s1), <- (length_map lower s2).
  now rewrite H.
Qed.

Ltac ci_cases s1 s2 :=
  destruct s1 as [|c1 s1]; destruct s2 as [|c2 s2];
  [ | intros Hci; apply ci_nil_l in Hci; discriminate
    | intros Hci; apply ci_nil_r in Hci; discriminate
    | intros Hci; apply ci_cons in Hci as [Hc Hci] ].

Lemma match_ci_ci lit s1 s2 :
  ci s1 s2 ->
  (match_ci lit s1 = None /\ match_ci lit s2 = None) \/
  (exists r1 r2, match_ci lit s1 = Some r1 /\ match_ci lit s2 = Some r2 /\ ci r1 r2).
Proof.
  revert s1 s2. induction lit as [|a lit IH]; intros s1 s2.
  - intros Hci. right. eauto.
  - ci_cases s1 s2.
    + left. split; reflexivity.
    + simpl. rewrite Hc. destruct (Ascii.eqb _ _).
      * apply IH, Hci.
      * left. split; reflexivity.
Qed.

Lemma skip_spaces_ci s1 s2 : ci s1 s2 -> ci (skip_spaces s1) (skip_spaces s2).
Proof.
  revert s2. induction s1 as [|c1 s1 IH]; intros s2 Hci.
  - apply ci_nil_l in Hci. subst s2. reflexivity.
  - destruct s2 as [|c2 s2]; [apply ci_nil_r in Hci; discriminate|].
    apply ci_cons in Hci as [Hc Hci]. simpl. destruct (lower_eq_classes c1 c2 Hc) as [Hs _]. rewrite Hs.
    destruct (is_space c2).
    + apply IH, Hci.
    + apply ci_cons. auto.
Qed.

Lemma span_digits_ci s1 s2 :
  ci s1 s2 -> fst (span_digits s1) = fst (span_digits s2) /\ ci (snd (span_digits s1)) (snd (span_digits s2)).
Proof.
  revert s2. induction s1 as [|c1 s1 IH]; intros s2 Hci.
  - apply ci_nil_l in Hci. subst s2. split; reflexivity.
  - destruct s2 as [|c2 s2]; [apply ci_nil_r in Hci; discriminate|].
    pose proof Hci as Hci0. apply ci_cons in Hci as [Hc Hci]. simpl.
    destruct (lower_eq_classes c1 c2 Hc) as (_ & Hd & Heq & _).
    rewrite <- Hd. destruct (is_digit c1) eqn:E.
    + rewrite (Heq eq_refl).
      destruct (IH s2 Hci) as [H1 H2].
      destruct (span_digits s1), (span_digits s2). simpl in *. subst. auto.
    + simpl. auto.
Qed.

Lemma match_hash {A} (d : ascii) (s : list ascii) (f : list ascii -> A) (z : A) :
  match d :: s with "#"%char :: s' => f s' | _ => z end =
  if Ascii.eqb d "#" then f s else z.
Proof.
  destruct d as [[] [] [] [] [] [] [] []]; reflexivity.
Qed.

Lemma match_tail_ci s1 s2 :
  ci s1 s2 ->
  (match_tail s1 = None /\ match_tail s2 = None) \/
  (exists ds r1 r2, match_tail s1 = Some (ds, r1) /\ match_tail s2 = Some (ds, r2) /\ ci r1 r2).
Proof.
  intros Hci. destruct s1 as [|c1 s1'], s2 as [|c2 s2'].
  - left. split; reflexivity.
  - apply ci_nil_l in Hci. discriminate.
  - apply ci_nil_r in Hci. discriminate.
  - pose proof (skip_spaces_ci _ _ Hci) as Hsk.
    apply ci_cons in Hci as [Hc _].
    destruct (lower_eq_classes c1 c2 Hc) as (Hs & _).
    unfold match_tail. rewrite <- Hs.
    destruct (is_space c1); [|left; split; reflexivity].
    destruct (skip_spaces (c1 :: s1')) as [|d1 t1],
             (skip_spaces (c2 :: s2')) as [|d2 t2].
    + left. split; reflexivity.
    + apply ci_nil_l in Hsk. discriminate.
    + apply ci_nil_r in Hsk. discriminate.
    + apply ci_cons in Hsk as [Hd Ht].
      pose proof (fun d t => match_hash d t (fun s' : list ascii =>
        let (ds, rest) := span_digits s' in
        match ds with [] => None | _ :: _ => Some (ds, rest) end) None) as M.
      cbv beta in M. rewrite !M. clear M.
      destruct (Ascii.eqb d1 "#") eqn:E1.
      * apply Ascii.eqb_eq in E1. subst d1.
        destruct (lower_eq_classes _ _ Hd) as (_ & _ & _ & Hh).
        rewrite (Hh eq_refl). simpl.
        destruct (span_digits_ci t1 t2 Ht) as [H1 H2].
        destruct (span_digits t1) as [[|x xs] r1], (span_digits t2) as [ds2 r2].
        -- simpl in *. subst. left. split; reflexivity.
        -- simpl in *. subst. right. exists (x :: xs), r1, r2. auto.
      * destruct (Ascii.eqb d2 "#") eqn:E2; [|left; split; reflexivity].
        apply Ascii.eqb_eq in E2. subst d2.
        destruct (lower_eq_classes _ _ (eq_sym Hd)) as (_ & _ & _ & Hh).
        rewrite (Hh eq_refl) in E1. discriminate.
Qed.

Lemma match_at_ci alts s1 s2 :
  ci s1 s2 ->
  (match_at alts s1 = None /\ match_at alts s2 = None) \/
  (exists ds r1 r2, match_at alts s1 = Some (ds, r1) /\ match_at alts s2 = Some (ds, r2) /\ ci r1 r2).
Proof.
  intros Hci. induction alts as [|a alts IH]; simpl.
  - left. split; reflexivity.
  - destruct (match_ci_ci a s1 s2 Hci) as [[-> ->] | (r1 & r2 & -> & -> & Hr)];
      [exact IH|].
    destruct (match_tail_ci r1 r2 Hr) as [[-> ->] | (ds & t1 & t2 & -> & -> & Ht)];
      [exact IH|].
    right. exists ds, t1, t2. auto.
Qed.

Lemma finditer_go_ci n s1 s2 :
  ci s1 s2 -> finditer_go n s1 = finditer_go n s2.
Proof.
  revert s1 s2. induction n as [|n IH]; intros s1 s2 Hci; [reflexivity|].
  cbn [finditer_go]. destruct s1 as [|c1 s1'], s2 as [|c2 s2'].
  - reflexivity.
  - apply ci_nil_l in Hci. discriminate.
  - apply ci_nil_r in Hci. discriminate.
  - destruct (match_at_ci keywords _ _ Hci)
      as [[-> ->] | (ds & r1 & r2 & -> & -> & Hr)].
    + apply ci_cons in Hci as [_ Hci]. apply IH, Hci.
    + f_equal. apply IH, Hr.
Qed.


Lemma match_ci_split lit s r :
  match_ci lit s = Some r -> exists kw, s = kw ++ r /\ map lower kw = map lower lit.
Proof.
  revert s. induction lit as [|a lit IH]; intros s H.
  - injection H as <-. exists []. auto.
  - destruct s as [|d s]; [discriminate|]. simpl in H.
    destruct (Ascii.eqb (lower a) (lower d)) eqn:E; [|discriminate].
    apply Ascii.eqb_eq in E. destruct (IH s H) as (kw & -> & Hkw).
    exists (d :: kw). simpl. rewrite Hkw, E. auto.
Qed.

Lemma skip_spaces_split s :
  exists sp, s = sp ++ skip_spaces s /\ Forall (fun c => is_space c = true) sp.
Proof.
  induction s as [|c s IH]; simpl.
  - exists []. auto.
  - destruct (is_space c) eqn:E.
    + destruct IH as (sp & Hs & Hsp). exists (c :: sp).
      split; [simpl; congruence | constructor; auto].
    + exists []. auto.
Qed.

Lemma span_digits_split s ds r :
  span_digits s = (ds, r) -> s = ds ++ r /\ Forall (fun c => is_digit c = true) ds.
Proof.
  revert ds r. induction s as [|c s IH]; intros ds r H; simpl in H.
  - injection H as <- <-. auto.
  - destruct (is_digit c) eqn:E.
    + destruct (span_digits s) as [ds' r'] eqn:Hs. injection H as <- <-.
      destruct (IH _ _ eq_refl) as [-> Hds]. split; [reflexivity | constructor; auto].
    + injection H as <- <-. auto.
Qed.

Lemma match_tail_split s ds r :
  match_tail s = Some (ds, r) ->
  exists sp, s = sp ++ "#"%char :: ds ++ r /\ sp <> [] /\
    Forall (fun c => is_space c = true) sp /\
    ds <> [] /\ Forall (fun c => is_digit c = true) ds.
Proof.
  unfold match_tail. destruct s as [|c s']; [discriminate|].
  destruct (is_space c) eqn:Ec; [|discriminate].
  assert (Hsk : skip_spaces (c :: s') = skip_spaces s') by (simpl; now rewrite Ec).
  rewrite Hsk. destruct (skip_spaces_split s') as (sp & Hs' & Hsp).
  destruct (skip_spaces s') as [|d t]; [discriminate|].
  pose proof (fun d t => match_hash d t (fun s' : list ascii =>
    let (ds, rest) := span_digits s' in
    match ds with [] => None | _ :: _ => Some (ds, rest) end) None) as M.
  cbv beta in M. rewrite M. clear M.
  destruct (Ascii.eqb d "#") eqn:Ed; [|discriminate].
  apply Ascii.eqb_eq in Ed. subst d.
  destruct (span_digits t) as [[|x xs] rest] eqn:Ht; [discriminate|].
  intros H. injection H as <- <-.
  destruct (span_digits_split _ _ _ Ht) as [-> Hds].
  exists (c :: sp). repeat split; try discriminate.
  - simpl. now rewrite Hs'.
  - constructor; auto.
  - exact Hds.
Qed.

Lemma match_at_split alts s ds r :
  match_at alts s = Some (ds, r) ->
  exists a kw sp, a ∈ alts /\ map lower kw = map lower a /\
    s = kw ++ sp ++ "#"%char :: ds ++ r /\ sp <> [] /\
    Forall (fun c => is_space c = true) sp /\
    ds <> [] /\ Forall (fun c => is_digit c = true) ds.
Proof.
  induction alts as [|a alts IH]; simpl; [discriminate|].
  destruct (match_ci a s) as [s'|] eqn:Hm.
  - destruct (match_tail s') as [[ds' r']|] eqn:Ht.
    + intros H. injection H as -> ->.
      destruct (match_ci_split _ _ _ Hm) as (kw & -> & Hkw).
      destruct (match_tail_split _ _ _ Ht) as (sp & -> & Hsp).
      exists a, kw, sp. split; [left|]. auto.
    + intros H. destruct (IH H) as (a' & kw & sp & Ha' & Hrest).
      exists a', kw, sp. split; [right; exact Ha'|]. exact Hrest.
  - intros H. destruct (IH H) as (a' & kw & sp & Ha' & Hrest).
    exists a', kw, sp. split; [right; exact Ha'|]. exact Hrest.
Qed.

Lemma keywords_lower a : a ∈ keywords -> map lower a = a.
Proof.
  unfold keywords. simpl. intros Ha.
  repeat (apply elem_of_cons in Ha as [-> | Ha]; [reflexivity|]).
  apply elem_of_nil in Ha. contradiction.
Qed.

Lemma finditer_go_split n s ds :
  In ds (finditer_go n s) ->
  exists pre kw sp post, s = pre ++ kw ++ sp ++ "#"%char :: ds ++ post /\
    map lower kw ∈ keywords /\ sp <> [] /\
    Forall (fun c => is_space c = true) sp /\
    ds <> [] /\ Forall (fun c => is_digit c = true) ds.
Proof.
  revert s. induction n as [|n IH]; intros s H; [destruct H|].
  cbn [finditer_go] in H. destruct s as [|c s']; [destruct H|].
  destruct (match_at keywords (c :: s')) as [[ds0 r0]|] eqn:Hm.
  - destruct H as [<- | H].
    + destruct (match_at_split _ _ _ _ Hm) as (a & kw & sp & Ha & Hkw & Hs & Hrest).
      exists [], kw, sp, r0. rewrite Hkw, (keywords_lower a Ha). auto.
    + destruct (IH _ H) as (pre & kw & sp & post & Hr & Hrest).
      destruct (match_at_split _ _ _ _ Hm) as (a & kw0 & sp0 & _ & _ & Hs & _).
      exists (kw0 ++ sp0 ++ "#"%char :: ds0 ++ pre), kw, sp, post.
      split; [|exact Hrest]. rewrite Hs, Hr, <- !app_assoc. simpl. now rewrite <- !app_assoc.
  - destruct (IH _ H) as (pre & kw & sp & post & Hr & Hrest).
    exists (c :: pre), kw, sp, post. split; [|exact Hrest]. now rewrite Hr.
Qed.

(** ISSUE_PR_LINK_PATTERN is compiled with re.IGNORECASE: two bodies that
    differ only in the case of their ASCII letters link the same ids. *)
Theorem linked_ids_ignore_case b1 b2 :
  map lower (list_ascii_of_string b1) = map lower (list_ascii_of_string b2) ->
  linked_ids b1 = linked_ids b2.
Proof.
  intros H. unfold linked_ids, finditer.
  rewrite (ci_length _ _ H). f_equal. f_equal.
  apply finditer_go_ci, H.
Qed.

Lemma linked_ids_ignore_case_witness :
  map lower (list_ascii_of_string "CLOSES #7, Fixed  #8")
  = map lower (list_ascii_of_string "closes #7, fixed  #8") /\
  linked_ids "CLOSES #7, Fixed  #8" = linked_ids "closes #7, fixed  #8".
Proof.
  split; [reflexivity|]. apply linked_ids_ignore_case. reflexivity.
Defined.



End LinkFacts.

(* ===================================================================== *)
(** ** Proofs: the fetch side *)
(* ===================================================================== *)

Module FetchFacts.
Import Fetch.

Lemma match_lit_app lit rest : match_lit lit (lit ++ rest) = Some rest.
Proof.
  induction lit as [|c lit IH]; simpl; [reflexivity|].
  now rewrite Ascii.eqb_refl.
Qed.

Lemma eqb_false_neq c d : c <> d -> Ascii.eqb c d = false.
Proof. intros H. destruct (Ascii.eqb c d) eqn:E; [apply Ascii.eqb_eq in E; congruence | reflexivity]. Qed.

Lemma link_sep_eq :
  link_sep = [">"; ";"; " "; "r"; "e"; "l"; "="; dquote]%char.
Proof. reflexivity. Qed.

Lemma match_lit_sep_none c s : c <> ">"%char -> match_lit link_sep (c :: s) = None.
Proof.
  intros Hc. rewrite link_sep_eq. cbn [match_lit].
  rewrite (eqb_false_neq ">" c); [reflexivity | congruence].
Qed.

Lemma rel_go_ok acc r rest :
  r <> [] -> Forall (fun c => c <> dquote /\ c <> newline) r ->
  rel_go acc (r ++ dquote :: rest) = Some (acc ++ r, rest).
Proof.
  revert acc. induction r as [|c r IH]; intros acc Hne Hr; [congruence|].
  apply Forall_cons in Hr as [[Hq Hn] Hr]. cbn [rel_go app].
  rewrite (eqb_false_neq c newline Hn).
  destruct r as [|c' r'].
  - cbn [app]. rewrite Ascii.eqb_refl. reflexivity.
  - apply Forall_cons in Hr as Hr'. destruct Hr' as [[Hq' _] _].
    cbn [app]. rewrite (eqb_false_neq c' dquote Hq').
    specialize (IH (acc ++ [c]) ltac:(discriminate) Hr). cbn [app] in IH.
    rewrite IH. now rewrite <- app_assoc.
Qed.

Lemma url_go_ok acc u r rest :
  u <> [] -> Forall (fun c => c <> ">"%char /\ c <> newline) u ->
  r <> [] -> Forall (fun c => c <> dquote /\ c <> newline) r ->
  url_go acc (u ++ link_sep ++ r ++ dquote :: rest) = Some (acc ++ u, r, rest).
Proof.
  intros Hune Hu Hrne Hr. revert acc.
  induction u as [|c u IH]; intros acc; [congruence|].
  apply Forall_cons in Hu as [[Hg Hn] Hu]. cbn [url_go app].
  rewrite (eqb_false_neq c newline Hn).
  destruct u as [|c' u'].
  - cbn [app]. rewrite match_lit_app, (rel_go_ok [] r rest Hrne Hr). reflexivity.
  - apply Forall_cons in Hu as Hu'. destruct Hu' as [[Hg' _] _].
    cbn [app]. rewrite (match_lit_sep_none c' _ Hg').
    specialize (IH ltac:(discriminate) Hu (acc ++ [c])). cbn [app] in IH.
    rewrite IH. now rewrite <- app_assoc.
Qed.

Lemma link_entry_length e : (1 <= length (link_entry e))%nat.
Proof. unfold link_entry. simpl. lia. Qed.

Lemma list_ascii_of_string_nonempty s : s <> ""%string -> list_ascii_of_string s <> [].
Proof. destruct s; simpl; congruence. Qed.

Lemma link_finditer_go_entry fuel e rest :
  link_entry_ok e ->
  link_finditer_go (S fuel) (link_entry e ++ rest)
  = (list_ascii_of_string e.1, list_ascii_of_string e.2) :: link_finditer_go fuel rest.
Proof.
  intros (Hu1 & Hu & Hr1 & Hr).
  assert (Heq : link_entry e ++ rest = "<"%char ::
            (list_ascii_of_string e.1 ++ link_sep ++ list_ascii_of_string e.2 ++ dquote :: rest)).
  { unfold link_entry. cbn [app]. now rewrite <- !app_assoc. }
  assert (Hm : match_link ("<"%char ::
            (list_ascii_of_string e.1 ++ link_sep ++ list_ascii_of_string e.2 ++ dquote :: rest))
               = Some (list_ascii_of_string e.1, list_ascii_of_string e.2, rest)).
  { unfold match_link. rewrite Ascii.eqb_refl.
    apply (url_go_ok [] _ _ rest); auto using list_ascii_of_string_nonempty. }
  rewrite Heq. cbn [link_finditer_go]. now rewrite Hm.
Qed.

Lemma link_finditer_go_sep fuel rest :
  link_finditer_go (S (S fuel)) ([","%char; " "%char] ++ rest) = link_finditer_go fuel rest.
Proof. reflexivity. Qed.

Lemma link_finditer_go_nil fuel : link_finditer_go fuel [] = [].
Proof. destruct fuel; reflexivity. Qed.

Lemma link_finditer_go_tail es fuel :
  Forall link_entry_ok es ->
  (length (concat (map (fun e' => [","%char; " "%char] ++ link_entry e') es)) < fuel)%nat ->
  link_finditer_go fuel (concat (map (fun e' => [","%char; " "%char] ++ link_entry e') es))
  = map (fun e => (list_ascii_of_string e.1, list_ascii_of_string e.2)) es.
Proof.
  revert fuel. induction es as [|e es IH]; intros fuel Hok Hlen.
  - apply link_finditer_go_nil.
  - apply Forall_cons in Hok as [He Hok].
    cbn [map concat] in Hlen |- *. rewrite <- app_assoc.
    rewrite !length_app in Hlen. cbn [length] in Hlen.
    pose proof (link_entry_length e) as Hl.
    destruct fuel as [|[|[|fuel]]]; try lia.
    rewrite link_finditer_go_sep, (link_finditer_go_entry fuel e _ He). f_equal.
    apply IH; [exact Hok|]. lia.
Qed.

Lemma link_finditer_render es :
  Forall link_entry_ok es -> link_finditer (render_link es) = es.
Proof.
  intros Hok. destruct es as [|e es]; [reflexivity|].
  apply Forall_cons in Hok as [He Hok].
  unfold link_finditer, render_link.
  rewrite list_ascii_of_string_of_list_ascii, length_app.
  pose proof (link_entry_length e) as Hl.
  destruct (length (link_entry e)) as [|n] eqn:En; [lia|].
  rewrite (link_finditer_go_entry _ e _ He), link_finditer_go_tail by (auto; lia).
  simpl. rewrite !string_of_list_ascii_of_string, map_map.
  f_equal; [destruct e; reflexivity|].
  erewrite map_ext; [apply map_id|]. intros [u r]. simpl.
  now rewrite !string_of_list_ascii_of_string.
Qed.

Lemma extract_links_from_entries es acc x :
  (fold_left extract_step es acc).1 = Some x \/
  (fold_left extract_step es acc).2 = Some x ->
  acc.1 = Some x \/ acc.2 = Some x \/ exists rel, (x, rel) ∈ es.
Proof.
  revert acc. induction es as [|[u r] es IH]; intros [nx ls] H; simpl in H.
  - destruct H; auto.
  - destruct (IH _ H) as [H1 | [H1 | [rel Hin]]].
    + destruct (String.eqb r "next"); simpl in H1.
      * injection H1 as ->. right. right. exists r. left.
      * left. exact H1.
    + destruct (String.eqb r "last"); simpl in H1.
      * injection H1 as ->. right. right. exists r. left.
      * right. left. exact H1.
    + right. right. exists rel. right. exact Hin.
Qed.

Lemma extract_links_urls_ok es x :
  Forall link_entry_ok es ->
  (extract_links es).1 = Some x \/ (extract_links es).2 = Some x -> x <> ""%string.
Proof.
  intros Hok H. unfold extract_links in H.
  destruct (extract_links_from_entries es (None, None) x H)
    as [H1 | [H1 | [rel Hin]]]; try discriminate.
  rewrite Forall_forall in Hok.
  exact (proj1 (Hok _ Hin)).
Qed.

Lemma render_link_nonempty es : es <> [] -> render_link es <> ""%string.
Proof. destruct es; [congruence|]. intros _. discriminate. Qed.

Lemma get_resp_header_ok {Body} (r : Response Body) h v :
  headers_get (resp_headers r) h = Some v -> v <> ""%string -> get_resp_header r h = Ok v.
Proof.
  intros Hh Hv. unfold get_resp_header. rewrite Hh.
  destruct (String.eqb v "") eqn:E; [apply String.eqb_eq in E; congruence | reflexivity].
Qed.

Lemma raise_for_status_ok {Body} (r : Response Body) :
  ~ (400 <= status_code r < 600)%Z -> raise_for_status r = Ok tt.
Proof.
  intros H. unfold raise_for_status.
  destruct (Z.leb_spec 400 (status_code r)), (Z.ltb_spec (status_code r) 600);
    simpl; [lia | reflexivity ..].
Qed.

Section LoopFacts.

Context {Body Item : Type}
  (json_events : Body -> Result (list Item))
  (reset_check : string -> Result unit)
  (get : string -> Response Body)
  (write_file : list Item -> Result unit).

Lemma fetch_page_ok u events es :
  page_ok json_events reset_check (get u) events es ->
  fetch_page json_events reset_check get u = Ok (events, (extract_links es).1, (extract_links es).2).
Proof.
  intros (Hst & Hne & Hok & Hlink & Hhs & Hreset & Hjson).
  assert (Hh : forall h, h ∈ ["etag"; "x-poll-interval"; "x-ratelimit-remaining";
                  "x-ratelimit-used"; "x-ratelimit-limit"; "x-ratelimit-reset"] ->
     exists v, get_resp_header (get u) h = Ok v /\
       headers_get (resp_headers (get u)) h = Some v).
  { intros h Hin. destruct (Hhs h Hin) as (v & Hv & Hv').
    exists v. split; [apply get_resp_header_ok|]; assumption. }
  destruct (Hh "etag") as (v1 & E1 & _); [set_solver|].
  destruct (Hh "x-poll-interval") as (v2 & E2 & _); [set_solver|].
  destruct (Hh "x-ratelimit-remaining") as (v3 & E3 & _); [set_solver|].
  destruct (Hh "x-ratelimit-used") as (v4 & E4 & _); [set_solver|].
  destruct (Hh "x-ratelimit-limit") as (v5 & E5 & _); [set_solver|].
  destruct (Hh "x-ratelimit-reset") as (v6 & E6 & H6); [set_solver|].
  unfold fetch_page.
  rewrite (raise_for_status_ok _ Hst). cbn [mbind Result_bind].
  rewrite E1. cbn [mbind Result_bind].
  rewrite (get_resp_header_ok _ _ _ Hlink (render_link_nonempty _ Hne)).
  cbn [mbind Result_bind].
  rewrite (link_finditer_render _ Hok).
  destruct (extract_links es) as [nx ls].
  rewrite E2, E3, E4, E5, E6. cbn [mbind Result_bind].
  rewrite (Hreset _ H6). cbn [mbind Result_bind].
  rewrite Hjson. reflexivity.
Qed.

Lemma head_app_some (l : list string) x : exists y, head (l ++ [x]) = Some y.
Proof. destruct l; simpl; eauto. Qed.

Lemma fetch_loop_chain pages last_url last_events last_es :
  (forall i u ev, pages !! i = Some (u, ev) ->
     u <> last_url /\ exists es, page_ok json_events reset_check (get u) ev es /\
       extract_links es = ((map fst pages ++ [last_url]) !! S i, Some last_url)) ->
  page_ok json_events reset_check (get last_url) last_events last_es ->
  (extract_links last_es).1 = None \/ (extract_links last_es).2 = None \/
  (extract_links last_es).2 = Some last_url ->
  forall fuel cur acc, head (map fst pages ++ [last_url]) = Some cur ->
  (length pages < fuel)%nat ->
  fetch_loop json_events reset_check get fuel cur acc
  = Ok (Some (acc ++ concat (map snd pages) ++ last_events)).
Proof.
  intros Hpages Hlast Hend.
  induction pages as [|[u ev] ps IH]; intros fuel cur acc Hcur Hfuel.
  - injection Hcur as <-. destruct fuel as [|fuel]; [lia|].
    cbn [fetch_loop]. rewrite (fetch_page_ok _ _ _ Hlast). cbn [mbind Result_bind].
    destruct (extract_links last_es) as [nx ls]. simpl in Hend.
    destruct Hend as [-> | [-> | ->]]; simpl.
    + reflexivity.
    + rewrite orb_true_r. reflexivity.
    + rewrite String.eqb_refl, !orb_true_r. reflexivity.
  - injection Hcur as <-. destruct fuel as [|fuel]; [simpl in Hfuel; lia|].
    destruct (Hpages 0%nat u ev eq_refl) as (Hne & es & Hok & Hext).
    destruct (head_app_some (map fst ps) last_url) as [next Hnext].
    assert (Hn : (map fst ((u, ev) :: ps) ++ [last_url]) !! 1%nat = Some next).
    { simpl. destruct (map fst ps); simpl in *; congruence. }
    rewrite Hn in Hext.
    pose proof Hok as (_ & _ & Hentries & _).
    assert (Hnext_ne : next <> ""%string).
    { apply (extract_links_urls_ok es next Hentries). left. now rewrite Hext. }
    assert (Hlast_ne : last_url <> ""%string).
    { apply (extract_links_urls_ok es last_url Hentries). right. now rewrite Hext. }
    cbn [fetch_loop]. rewrite (fetch_page_ok _ _ _ Hok), Hext. cbn [mbind Result_bind].
    simpl falsy.
    destruct (String.eqb next "") eqn:E1; [apply String.eqb_eq in E1; congruence|].
    destruct (String.eqb last_url "") eqn:E2; [apply String.eqb_eq in E2; congruence|].
    destruct (String.eqb u last_url) eqn:E3; [apply String.eqb_eq in E3; congruence|].
    assert (Hf : (length ps < fuel)%nat) by (simpl in Hfuel; lia).
    simpl. rewrite E3.
    rewrite (IH (fun i u' ev' H => Hpages (S i) u' ev' H) fuel next (acc ++ ev) Hnext Hf).
    simpl. now rewrite <- !app_assoc.
Qed.


Lemma get_resp_header_err {B} (r : Response B) h e :
  get_resp_header r h = Err e -> e = AssertionError.
Proof.
  unfold get_resp_header. destruct (headers_get _ _) as [v|].
  - destruct (String.eqb v ""); congruence.
  - congruence.
Qed.


End LoopFacts.

(** Parsing a [Link] header written in GitHub's format gives back its
    entries, in order: [re.finditer(LINK_PATTERN, ...)] yields one match per
    entry with its [url] and [rel] groups. *)
Theorem link_pattern_round_trip es :
  Forall link_entry_ok es -> link_finditer (render_link es) = es.
Proof. apply link_finditer_render. Qed.

Ltac entries_ok :=
  cbv [link_entry_ok start_link page2_link page3_link fst snd];
  repeat (first [ apply List.Forall_nil | apply List.Forall_cons | split | discriminate
                | progress cbn [list_ascii_of_string]]).

Ltac sample_page_ok :=
  unfold page_ok; split; [simpl; lia|];
  split; [discriminate|];
  split; [entries_ok|];
  split; [vm_compute; reflexivity|];
  split; [intros h Hh;
          repeat (apply elem_of_cons in Hh as [-> | Hh];
                  [eexists; split; [vm_compute; reflexivity | discriminate]|]);
          apply elem_of_nil in Hh; contradiction|];
  split; [intros v _; reflexivity | reflexivity].

Lemma link_pattern_round_trip_witness :
  link_finditer (render_link [(page2_link, "next"); (page3_link, "last")])
  = [(page2_link, "next"); (page3_link, "last")].
Proof.
  apply link_pattern_round_trip. entries_ok.
Defined.



End FetchFacts.
